(** * Voxelisation of a protein structure (labs/L6-protein-deep-learning)

    A shallow embedding of the voxel-grid cells of [laboratory.ipynb]:

      symbols       = ['C', 'N', 'O', 'S']
      bounding_box  = np.floor(pos.min(axis=0)), np.ceil(pos.max(axis=0))
      box_size      = (bounding_box[1] - bounding_box[0]).astype(int)
      grid          = np.zeros([*box_size, 4])
      for i, atom in enumerate(mol.GetAtoms()):
          symbol = atom.GetSymbol()
          position = np.floor(pos[i] - bounding_box[0]).astype(int)
          grid[position[0], position[1], position[2], symbols.index(symbol)] = 1.

    Coordinates are exact rationals ([Q]): PDB files carry decimal
    coordinates and the development reasons about the arithmetic of the
    notebook, not about binary rounding.  Statements that depend on the
    value of a difference of coordinates are made for differences that
    are double-precision numbers ([binary64]), where the subtraction of
    the notebook is the exact one.  [.astype(int)] is the conversion to a
    64-bit integer.  The numpy array is a shape and a flat row-major
    buffer; exceptions raised by numpy and by [list.index] are values of
    [exn] threaded through an error monad, and the in-place mutation of
    [grid] by the loop is explicit state passing. *)

From Stdlib Require Import ZArith QArith Qround Qminmax String List Lia Permutation.
From stdpp Require Import base list.

Local Open Scope Z_scope.

(** ** Exceptions and the error monad *)

Inductive exn : Type :=
  | ValueError_zero_size_reduction
      (* pos.min(axis=0) / pos.max(axis=0) on an array with no rows *)
  | ValueError_negative_dimensions
      (* np.zeros with a negative dimension *)
  | ValueError_array_is_too_big
      (* np.zeros with more bytes than the largest npy_intp *)
  | ValueError_not_in_list (x : string)
      (* symbols.index(x): 'x' is not in list *)
  | IndexError (ax : nat) (i n : Z).
      (* index i is out of bounds for axis ax with size n *)

Inductive result (A : Type) : Type :=
  | Ok (a : A)
  | Raise (e : exn).
Arguments Ok {A} a.
Arguments Raise {A} e.

#[global] Instance result_ret : MRet result := fun _ a => Ok a.
#[global] Instance result_bind : MBind result := fun _ _ f m =>
  match m with
  | Ok a => f a
  | Raise e => Raise e
  end.

(** ** Rows of length three *)

Record vec3 (A : Type) : Type := V3 { v0 : A; v1 : A; v2 : A }.
Arguments V3 {A} v0 v1 v2.
Arguments v0 {A} v.
Arguments v1 {A} v.
Arguments v2 {A} v.

Inductive axis : Type := ax0 | ax1 | ax2.

Definition component {A : Type} (a : axis) (v : vec3 A) : A :=
  match a with
  | ax0 => v0 v
  | ax1 => v1 v
  | ax2 => v2 v
  end.

Definition map3 {A B : Type} (f : A → B) (v : vec3 A) : vec3 B :=
  V3 (f (v0 v)) (f (v1 v)) (f (v2 v)).

Definition zip3 {A B C : Type} (f : A → B → C) (v : vec3 A) (w : vec3 B) : vec3 C :=
  V3 (f (v0 v) (v0 w)) (f (v1 v) (v1 w)) (f (v2 v) (v2 w)).

(** ** The input: one record per atom

    [mol.GetAtoms()] and [pos] are parallel sequences; the loop pairs
    [atom.GetSymbol()] with the row [pos[i]], here [symbol] and [coords]. *)

Record atom : Type := Atom { coords : vec3 Q; symbol : string }.

Definition pos (atoms : list atom) : list (vec3 Q) := map coords atoms.

(** ** numpy primitives used by the notebook *)

(** [a.min(axis=0)] and [a.max(axis=0)] on an array of shape (n, 3). *)
Definition reduce_axis0 (f : Q → Q → Q) (a : list (vec3 Q)) : result (vec3 Q) :=
  match a with
  | [] => Raise ValueError_zero_size_reduction
  | p :: ps => Ok (foldl (zip3 f) p ps)
  end.

Definition np_floor (q : Q) : Q := inject_Z (Qfloor q).
Definition np_ceil (q : Q) : Q := inject_Z (Qceiling q).

(** A truncated double stored as a 64-bit integer: a value outside the
    range of int64 is stored as the least int64 (what the conversion
    instruction of x86-64 yields). *)
Definition to_int64 (z : Z) : Z :=
  if (- 2 ^ 63 <=? z) && (z <? 2 ^ 63) then z else - 2 ^ 63.

(** [.astype(int)]: truncation towards zero, to int64. *)
Definition astype_int (q : Q) : Z := to_int64 (Z.quot (Qnum q) (Z.pos (Qden q))).

Definition shape4 : Type := (Z * Z * Z * Z)%type.

Record ndarray : Type := NDArray { shape : shape4; data : list Q }.

Definition np_size (sh : shape4) : Z :=
  let '(n0, n1, n2, n3) := sh in n0 * n1 * n2 * n3.

(** The check numpy makes on the dimensions of a new array, one after
    the other, with [nbytes] the bytes counted so far: a dimension 0 is
    passed over, a negative one is refused, and so is a byte count above
    the largest npy_intp. *)
Fixpoint check_dims (dims : list Z) (nbytes : Z) : result Z :=
  match dims with
  | [] => Ok nbytes
  | n :: rest =>
      if n =? 0 then check_dims rest nbytes
      else if n <? 0 then Raise ValueError_negative_dimensions
      else if 2 ^ 63 - 1 <? nbytes * n then Raise ValueError_array_is_too_big
      else check_dims rest (nbytes * n)
  end.

(** [np.zeros(sh)], of 8-byte floats.  The allocation itself can still
    fail with MemoryError, depending on the machine; that is outside this
    model, and what is proved of an array [np_zeros] returns is proved of
    the runs in which the allocation succeeded. *)
Definition np_zeros (sh : shape4) : result ndarray :=
  let '(n0, n1, n2, n3) := sh in
  _ ← check_dims [n0; n1; n2; n3] 8;
  mret (NDArray sh (replicate (Z.to_nat (np_size sh)) 0%Q)).

(** One integer subscript on one axis: negative subscripts count from the
    end, anything outside [-n, n) raises. *)
Definition check_index (ax : nat) (i n : Z) : result Z :=
  if (0 <=? i) && (i <? n) then Ok i
  else if (- n <=? i) && (i <? 0) then Ok (i + n)
  else Raise (IndexError ax i n).

Definition normalize (sh : shape4) (ix : shape4) : result shape4 :=
  let '(n0, n1, n2, n3) := sh in
  let '(i0, i1, i2, i3) := ix in
  j0 ← check_index 0 i0 n0;
  j1 ← check_index 1 i1 n1;
  j2 ← check_index 2 i2 n2;
  j3 ← check_index 3 i3 n3;
  mret (j0, j1, j2, j3).

(** Row-major offset of a normalised subscript. *)
Definition ravel (sh : shape4) (ix : shape4) : nat :=
  let '(_, n1, n2, n3) := sh in
  let '(i0, i1, i2, i3) := ix in
  Z.to_nat (((i0 * n1 + i1) * n2 + i2) * n3 + i3).

(** [a[i0, i1, i2, i3] = v] *)
Definition setitem (a : ndarray) (ix : shape4) (v : Q) : result ndarray :=
  jx ← normalize (shape a) ix;
  mret (NDArray (shape a) (<[ravel (shape a) jx := v]> (data a))).

(** [a[i0, i1, i2, i3]], with [None] for a subscript numpy rejects. *)
Definition getitem (a : ndarray) (ix : shape4) : option Q :=
  match normalize (shape a) ix with
  | Ok jx => data a !! ravel (shape a) jx
  | Raise _ => None
  end.

(** [l.index(x)] of a Python list. *)
Fixpoint index_from (l : list string) (x : string) (i : Z) : result Z :=
  match l with
  | [] => Raise (ValueError_not_in_list x)
  | y :: l' => if String.eqb y x then Ok i else index_from l' x (i + 1)
  end.

Definition index (l : list string) (x : string) : result Z := index_from l x 0.

(** ** The notebook cells *)

Definition symbols : list string := ["C"; "N"; "O"; "S"]%string.

Definition bbox : Type := (vec3 Q * vec3 Q)%type.

Definition bounding_box (atoms : list atom) : result bbox :=
  lo ← reduce_axis0 Qmin (pos atoms);
  hi ← reduce_axis0 Qmax (pos atoms);
  mret (map3 np_floor lo, map3 np_ceil hi).

Definition box_size (bounding_box : bbox) : vec3 Z :=
  map3 astype_int (zip3 Qminus (snd bounding_box) (fst bounding_box)).

Definition grid (box_size : vec3 Z) : result ndarray :=
  np_zeros (v0 box_size, v1 box_size, v2 box_size, 4).

(** [np.floor(pos[i] - bounding_box[0]).astype(int)] *)
Definition voxel_index (bounding_box : bbox) (a : atom) : vec3 Z :=
  map3 (fun q => astype_int (np_floor q)) (zip3 Qminus (coords a) (fst bounding_box)).

(** The loop body.  The subscript tuple is evaluated before the store, so
    a missing symbol raises before any bounds check. *)
Definition rasterize_atom (bounding_box : bbox) (g : ndarray) (a : atom) : result ndarray :=
  let position := voxel_index bounding_box a in
  c ← index symbols (symbol a);
  setitem g (v0 position, v1 position, v2 position, c) 1%Q.

(** The loop: the array is updated in place, and an exception leaves it as
    it was when the offending atom was reached. *)
Fixpoint rasterize (bounding_box : bbox) (g : ndarray) (atoms : list atom)
  : ndarray * option exn :=
  match atoms with
  | [] => (g, None)
  | a :: rest =>
      match rasterize_atom bounding_box g a with
      | Ok g' => rasterize bounding_box g' rest
      | Raise e => (g, Some e)
      end
  end.

(** All cells, top to bottom. *)
Definition voxelize (atoms : list atom) : result (ndarray * option exn) :=
  bb ← bounding_box atoms;
  g ← grid (box_size bb);
  mret (rasterize bb g atoms).

(** The array of a run that reached the end of the loop. *)
Definition completed (r : ndarray * option exn) : option ndarray :=
  match r with
  | (g, None) => Some g
  | (_, Some _) => None
  end.

(** ** Predicates used in the statements *)

Definition binary (g : ndarray) : Prop :=
  Forall (fun v => v = 0%Q ∨ v = 1%Q) (data g).

Definition wf (g : ndarray) : Prop :=
  let '(n0, n1, n2, n3) := shape g in
  0 ≤ n0 ∧ 0 ≤ n1 ∧ 0 ≤ n2 ∧ 0 ≤ n3 ∧ length (data g) = Z.to_nat (np_size (shape g)).

Definition in_range (sh : shape4) (ix : shape4) : Prop :=
  let '(n0, n1, n2, n3) := sh in
  let '(i0, i1, i2, i3) := ix in
  0 ≤ i0 < n0 ∧ 0 ≤ i1 < n1 ∧ 0 ≤ i2 < n2 ∧ 0 ≤ i3 < n3.

(** [ix] is a subscript numpy accepts for an array of shape [sh]: every
    index is in [-n, n). *)
Definition subscript (sh : shape4) (ix : shape4) : Prop :=
  let '(n0, n1, n2, n3) := sh in
  let '(i0, i1, i2, i3) := ix in
  - n0 ≤ i0 < n0 ∧ - n1 ≤ i1 < n1 ∧ - n2 ≤ i2 < n2 ∧ - n3 ≤ i3 < n3.

Definition integral (q : Q) : Prop := inject_Z (Qfloor q) = q.

(** [m] is a least element of [xs] (up to the equality of rationals). *)
Definition is_min (m : Q) (xs : list Q) : Prop :=
  In m xs ∧ Forall (fun x => (m <= x)%Q) xs.

Definition is_max (m : Q) (xs : list Q) : Prop :=
  In m xs ∧ Forall (fun x => (x <= m)%Q) xs.

Definition column (a : axis) (atoms : list atom) : list Q :=
  map (fun p => component a p) (pos atoms).

(** ** Auxiliary views of the loop

    The buffer offset one iteration stores to, and the effect of a
    sequence of such stores. *)

Definition target (bounding_box : bbox) (sh : shape4) (a : atom) : result nat :=
  let position := voxel_index bounding_box a in
  c ← index symbols (symbol a);
  jx ← normalize sh (v0 position, v1 position, v2 position, c);
  mret (ravel sh jx).

Definition target_opt (bounding_box : bbox) (sh : shape4) (a : atom) : option nat :=
  match target bounding_box sh a with
  | Ok o => Some o
  | Raise _ => None
  end.

Definition accepted (bounding_box : bbox) (sh : shape4) (a : atom) : bool :=
  match target bounding_box sh a with
  | Ok _ => true
  | Raise _ => false
  end.

Definition paint (d : list Q) (offs : list nat) : list Q :=
  foldl (fun d o => <[o := 1%Q]> d) d offs.

(** The array after the first [k] iterations of the loop over [atoms]. *)
Definition state_after (bounding_box : bbox) (g : ndarray) (atoms : list atom) (k : nat)
  : ndarray :=
  fst (rasterize bounding_box g (take k atoms)).

(** The array a whole run of the notebook ends with, when no cell raised. *)
Definition final_grid (atoms : list atom) : option ndarray :=
  match voxelize atoms with
  | Ok r => completed r
  | Raise _ => None
  end.

(** Extent of the box along one axis, from its corners. *)
Definition extent (bounding_box : bbox) (a : axis) : Z :=
  Qceiling (component a (snd bounding_box)) - Qfloor (component a (fst bounding_box)).

(** The finite double-precision numbers: m * 2^e with a 53-bit [m]. *)
Definition binary64 (q : Q) : Prop :=
  ∃ m e : Z, Z.abs m < 2 ^ 53 ∧ -1074 ≤ e ≤ 971 ∧ (q == inject_Z m * 2 ^ e)%Q.

(** The cell a subscript with indices in [-n, n) refers to. *)
Definition cell_of (sh ix : shape4) : shape4 :=
  let '(n0, n1, n2, n3) := sh in
  let '(i0, i1, i2, i3) := ix in
  (i0 mod n0, i1 mod n1, i2 mod n2, i3 mod n3).

(** The difference [pos[i] - bounding_box[0]] on one axis. *)
Definition offset_in_box (bounding_box : bbox) (a : atom) (ax : axis) : Q :=
  component ax (coords a) - component ax (fst bounding_box).

(** ** Sample inputs *)

Definition scenario : list atom :=
  [ Atom (V3 0.2 0.3 0.1)%Q "C"; Atom (V3 1.8 1.1 0.9)%Q "N" ].

Definition on_max_face : list atom :=
  [ Atom (V3 0.5 0.5 0.5)%Q "C"; Atom (V3 2.0 0.5 0.5)%Q "N" ].

Definition scenario_box : bbox := (V3 0 0 0, V3 2 2 1)%Q.

(** Two atoms 10^19 Angstroms apart, and two atoms 2^21 apart on every
    axis. *)
Definition far_apart : list atom :=
  [ Atom (V3 0.5 0.5 0.5)%Q "C"; Atom (V3 1e19 0.5 0.5)%Q "N" ].

Definition wide_box : list atom :=
  [ Atom (V3 0.5 0.5 0.5)%Q "C"; Atom (V3 2097151.5 2097151.5 2097151.5)%Q "N" ].

(** Atoms whose coordinates are doubles. *)
Definition dyadic : list atom :=
  [ Atom (V3 0.5 0.25 0.75)%Q "C"; Atom (V3 1.5 1.25 0.5)%Q "N" ].

Definition zeros_2114 : ndarray :=
  NDArray (2, 1, 1, 4) (replicate 8 0%Q).

Definition zeros_2214 : ndarray :=
  NDArray (2, 2, 1, 4) (replicate 16 0%Q).

(** ** The cells after the loop

    [grid.max(), grid.min()], the channel slices handed to the plot, the
    crop handed to the network, and the shapes the network computes. *)

(** [a.max()] and [a.min()] over the whole array. *)
Definition reduce_all (f : Q → Q → Q) (a : ndarray) : result Q :=
  match data a with
  | [] => Raise ValueError_zero_size_reduction
  | v :: vs => Ok (foldl f v vs)
  end.

Definition ndarray_max (a : ndarray) : result Q := reduce_all Qmax a.
Definition ndarray_min (a : ndarray) : result Q := reduce_all Qmin a.

(** Basic indexing returns a view: the same buffer, a start offset, and
    an (extent, stride) pair per axis. *)
Record view : Type := View { storage : list Q; offset : Z; dims : list (Z * Z) }.

Definition view_shape (v : view) : list Z := fst <$> dims v.

Definition np_prod (sh : list Z) : Z := foldr Z.mul 1 sh.

Fixpoint row_major (sh : list Z) : list (Z * Z) :=
  match sh with
  | [] => []
  | n :: rest => (n, np_prod rest) :: row_major rest
  end.

Definition as_view (a : ndarray) : view :=
  let '(n0, n1, n2, n3) := shape a in
  View (data a) 0 (row_major [n0; n1; n2; n3]).

(** Buffer position of a full subscript, [None] when an index is rejected
    or the number of indices is not the number of axes. *)
Fixpoint locate (ds : list (Z * Z)) (ix : list Z) (off : Z) : option Z :=
  match ds, ix with
  | [], [] => Some off
  | (n, s) :: ds', i :: ix' =>
      match check_index 0 i n with
      | Ok j => locate ds' ix' (off + j * s)
      | Raise _ => None
      end
  | _, _ => None
  end.

Definition view_getitem (v : view) (ix : list Z) : option Q :=
  off ← locate (dims v) ix (offset v);
  storage v !! Z.to_nat off.

(** Extent left by the slice [:k] on an axis of extent [n]. *)
Definition slice_stop (k n : Z) : Z :=
  if k <? 0 then Z.max 0 (n + k) else Z.min k n.

(** [v[..., :k, ...]] on axis [ax]. *)
Definition slice_axis (ax : nat) (k : Z) (v : view) : view :=
  View (storage v) (offset v)
       (alter (fun d => (slice_stop k (fst d), snd d)) ax (dims v)).

(** [grid[:, :, :, c]]: the last axis disappears, the view starts at the
    first element of channel [c]. *)
Definition channel (g : ndarray) (c : Z) : result view :=
  let v := as_view g in
  let '(_, _, _, n3) := shape g in
  j ← check_index 3 c n3;
  mret (View (storage v) (offset v + j * 1) (take 3 (dims v))).

(** [grid[:16, :16, :16, :]] *)
Definition crop (g : ndarray) : view :=
  slice_axis 2 16 (slice_axis 1 16 (slice_axis 0 16 (as_view g))).

(** The elements of a view in row-major order. *)
Fixpoint view_elements (b : list Q) (ds : list (Z * Z)) (off : Z) : list Q :=
  match ds with
  | [] => [default 0%Q (b !! Z.to_nat off)]
  | (n, s) :: ds' =>
      flat_map (fun i => view_elements b ds' (off + Z.of_nat i * s))
               (seq 0 (Z.to_nat n))
  end.

(** [torch.FloatTensor(a)]: a fresh tensor with its own row-major buffer.
    The conversion to single precision keeps the values 0 and 1, the
    only ones the array of the notebook holds, as they are. *)
Definition FloatTensor (v : view) : view :=
  View (view_elements (storage v) (dims v) (offset v)) 0 (row_major (view_shape v)).

Inductive torch_exn : Type :=
  | IndexError_dimension_out_of_range
  | RuntimeError_expected_4D_or_5D
  | RuntimeError_expected_channels (expected got : Z)
  | RuntimeError_kernel_greater_than_input
  | RuntimeError_output_size_too_small
  | RuntimeError_shapes_cannot_be_multiplied (got expected : Z)
  | RuntimeError_at_least_1D.

Inductive tres (A : Type) : Type :=
  | TOk (a : A)
  | TRaise (e : torch_exn).
Arguments TOk {A} a.
Arguments TRaise {A} e.

#[global] Instance tres_ret : MRet tres := fun _ a => TOk a.
#[global] Instance tres_bind : MBind tres := fun _ _ f m =>
  match m with
  | TOk a => f a
  | TRaise e => TRaise e
  end.

(** A dimension argument for a tensor of [r] dimensions. *)
Definition wrap_dim (d r : Z) : tres nat :=
  if (0 <=? d) && (d <? r) then TOk (Z.to_nat d)
  else if (- r <=? d) && (d <? 0) then TOk (Z.to_nat (d + r))
  else TRaise IndexError_dimension_out_of_range.

Definition unsqueeze (d : Z) (t : view) : tres view :=
  p ← wrap_dim d (Z.of_nat (length (dims t)) + 1);
  let s := match dims t !! p with
           | Some (n, s) => n * s
           | None => 1
           end in
  mret (View (storage t) (offset t) (take p (dims t) ++ (1, s) :: drop p (dims t))).

Definition movedim (source destination : Z) (t : view) : tres view :=
  let r := Z.of_nat (length (dims t)) in
  s ← wrap_dim source r;
  d ← wrap_dim destination r;
  match dims t !! s with
  | Some m =>
      let rest := delete s (dims t) in
      mret (View (storage t) (offset t) (take d rest ++ m :: drop d rest))
  | None => TRaise IndexError_dimension_out_of_range
  end.

(** [x = torch.FloatTensor(grid[:16, :16 ,:16, :]).unsqueeze(0).movedim(4,1)] *)
Definition x (g : ndarray) : tres view :=
  t ← unsqueeze 0 (FloatTensor (crop g));
  movedim 4 1 t.

(** The layers of [torch.nn.Sequential], and what each does to the shape
    of its input (stride 1 and no dilation for the convolutions, stride
    equal to the kernel for the pooling, as the defaults are). *)
Inductive layer : Type :=
  | Conv3d (in_channels out_channels kernel_size padding : Z)
  | ELU
  | MaxPool3d (kernel_size : Z)
  | Dropout3d (p : Q)
  | Flatten
  | Linear (in_features out_features : Z)
  | Sigmoid.

Definition model : list layer :=
  [ Conv3d 4 32 8 2;
    ELU;
    Conv3d 32 48 4 1;
    ELU;
    MaxPool3d 2;
    Dropout3d 0.25%Q;
    Flatten;
    Linear 10368 256;
    ELU;
    Linear 256 1;
    Sigmoid ].

Definition conv_out (k p n : Z) : tres Z :=
  if n + 2 * p <? k then TRaise RuntimeError_kernel_greater_than_input
  else TOk (n + 2 * p - k + 1).

Definition pool_out (k n : Z) : tres Z :=
  let o := (n - k) / k + 1 in
  if o <? 1 then TRaise RuntimeError_output_size_too_small else TOk o.

Definition spatial (f : Z → tres Z) (sp : list Z) : tres (list Z) :=
  mapM f sp.

Definition forward_shape (l : layer) (sh : list Z) : tres (list Z) :=
  match l with
  | Conv3d cin cout k p =>
      match sh with
      | [n; c; d; h; w] =>
          if c =? cin
          then sp ← spatial (conv_out k p) [d; h; w]; mret (n :: cout :: sp)
          else TRaise (RuntimeError_expected_channels cin c)
      | [c; d; h; w] =>
          if c =? cin
          then sp ← spatial (conv_out k p) [d; h; w]; mret (cout :: sp)
          else TRaise (RuntimeError_expected_channels cin c)
      | _ => TRaise RuntimeError_expected_4D_or_5D
      end
  | MaxPool3d k =>
      match sh with
      | [n; c; d; h; w] => sp ← spatial (pool_out k) [d; h; w]; mret (n :: c :: sp)
      | [c; d; h; w] => sp ← spatial (pool_out k) [d; h; w]; mret (c :: sp)
      | _ => TRaise RuntimeError_expected_4D_or_5D
      end
  | Flatten =>
      match sh with
      | n :: m :: rest => TOk [n; np_prod (m :: rest)]
      | _ => TRaise IndexError_dimension_out_of_range
      end
  | Linear fin fout =>
      match reverse sh with
      | f :: init =>
          if f =? fin then TOk (reverse (fout :: init))
          else TRaise (RuntimeError_shapes_cannot_be_multiplied f fin)
      | [] => TRaise RuntimeError_at_least_1D
      end
  | ELU | Dropout3d _ | Sigmoid => TOk sh
  end.

Fixpoint sequential_shape (ls : list layer) (sh : list Z) : tres (list Z) :=
  match ls with
  | [] => TOk sh
  | l :: ls' => sh' ← forward_shape l sh; sequential_shape ls' sh'
  end.

(** Shape of [model(x)]. *)
Definition model_x_shape (g : ndarray) : tres (list Z) :=
  t ← x g;
  sequential_shape model (view_shape t).

(** ** Transformations of the input used in the statements *)

(** The atom moved by a whole number of Angstroms along each axis. *)
Definition translate (t : vec3 Z) (a : atom) : atom :=
  Atom (zip3 Qplus (coords a) (map3 inject_Z t)) (symbol a).

Example scenario_model_rejected :
  (grid_of ← final_grid scenario; Some (model_x_shape grid_of))
  = Some (TRaise RuntimeError_kernel_greater_than_input).
Proof. vm_compute. reflexivity. Qed.

Example scenario_runs :
  voxelize scenario =
  Ok (NDArray (2, 2, 1, 4)
        [1; 0; 0; 0;  0; 0; 0; 0;  0; 0; 0; 0;  0; 1; 0; 0]%Q, None).
Proof. vm_compute. reflexivity. Qed.

(** ** Arithmetic of floor, ceil and truncation *)

Section Rounding.

Lemma to_int64_range (z : Z) : - 2 ^ 63 ≤ to_int64 z < 2 ^ 63.
Proof.
  unfold to_int64.
  destruct ((- 2 ^ 63 <=? z) && (z <? 2 ^ 63)) eqn:E; [|lia].
  apply andb_true_iff in E as [E1 E2]. lia.
Qed.

Lemma to_int64_fits (z : Z) : - 2 ^ 63 ≤ z < 2 ^ 63 → to_int64 z = z.
Proof.
  intros H. unfold to_int64.
  replace ((- 2 ^ 63 <=? z) && (z <? 2 ^ 63)) with true; [reflexivity|].
  symmetry. apply andb_true_iff. split; lia.
Qed.

(** A converted value above the least int64 is the value itself. *)
Lemma to_int64_exact (z : Z) : - 2 ^ 63 < to_int64 z → to_int64 z = z.
Proof.
  unfold to_int64.
  destruct ((- 2 ^ 63 <=? z) && (z <? 2 ^ 63)); [reflexivity|lia].
Qed.

Lemma astype_int_inject_Z (z : Z) : astype_int (inject_Z z) = to_int64 z.
Proof. unfold astype_int, inject_Z. simpl. now rewrite Z.quot_1_r. Qed.

Lemma astype_int_np_floor (q : Q) : astype_int (np_floor q) = to_int64 (Qfloor q).
Proof. apply astype_int_inject_Z. Qed.

Lemma Qfloor_minus_Z (x : Q) (m : Z) :
  Qfloor (x - inject_Z m) = Qfloor x - m.
Proof.
  destruct x as [n d]. unfold Qminus, Qplus, Qopp, inject_Z, Qfloor. simpl.
  rewrite Z.mul_1_r, Pos.mul_1_r.
  replace (n + - m * Z.pos d) with (n + (- m) * Z.pos d) by lia.
  rewrite Z.div_add by lia. lia.
Qed.

Lemma astype_int_minus_Z (c f : Z) :
  astype_int (inject_Z c - inject_Z f) = to_int64 (c - f).
Proof.
  unfold astype_int, Qminus, Qplus, Qopp, inject_Z. simpl.
  rewrite Z.quot_1_r. f_equal. lia.
Qed.

Lemma np_floor_integral (q : Q) : integral (np_floor q).
Proof. unfold integral, np_floor. now rewrite Qfloor_Z. Qed.

Lemma np_ceil_integral (q : Q) : integral (np_ceil q).
Proof. unfold integral, np_ceil. now rewrite Qfloor_Z. Qed.


Lemma Qfloor_upper (z : Z) (x : Q) : (x < inject_Z z)%Q → Qfloor x < z.
Proof.
  intros H. destruct (Z_lt_le_dec (Qfloor x) z) as [Hlt|Hle]; [exact Hlt|].
  exfalso. apply (Qlt_irrefl x).
  eapply Qlt_le_trans; [exact H|].
  eapply Qle_trans; [|apply Qfloor_le].
  rewrite <- Zle_Qle. exact Hle.
Qed.

Lemma Qceiling_floor_le (x y : Q) : (x <= y)%Q → Qfloor x ≤ Qceiling y.
Proof.
  intros H. rewrite Zle_Qle.
  eapply Qle_trans; [apply Qfloor_le|].
  eapply Qle_trans; [exact H|apply Qle_ceiling].
Qed.

End Rounding.

(** ** Subscripts and the flat buffer *)

Section Subscripts.

Lemma check_index_Ok (ax : nat) (i n j : Z) :
  check_index ax i n = Ok j → 0 ≤ j < n.
Proof.
  unfold check_index.
  destruct ((0 <=? i) && (i <? n)) eqn:E1.
  - intros [= <-]. apply andb_true_iff in E1. lia.
  - destruct ((- n <=? i) && (i <? 0)) eqn:E2; [|discriminate].
    intros [= <-]. apply andb_true_iff in E2. lia.
Qed.

Lemma check_index_in_range (ax : nat) (i n : Z) :
  0 ≤ i < n → check_index ax i n = Ok i.
Proof.
  intros H. unfold check_index.
  replace ((0 <=? i) && (i <? n)) with true; [reflexivity|].
  symmetry. apply andb_true_iff. lia.
Qed.


Lemma normalize_in_range (sh ix : shape4) :
  in_range sh ix → normalize sh ix = Ok ix.
Proof.
  destruct sh as [[[n0 n1] n2] n3], ix as [[[i0 i1] i2] i3].
  intros (H0 & H1 & H2 & H3). unfold normalize.
  rewrite !check_index_in_range by assumption. reflexivity.
Qed.

Lemma normalize_Ok (sh ix jx : shape4) :
  normalize sh ix = Ok jx → in_range sh jx.
Proof.
  destruct sh as [[[n0 n1] n2] n3], ix as [[[i0 i1] i2] i3].
  unfold normalize.
  destruct (check_index 0 i0 n0) as [j0|] eqn:E0; [|discriminate].
  destruct (check_index 1 i1 n1) as [j1|] eqn:E1; [|discriminate].
  destruct (check_index 2 i2 n2) as [j2|] eqn:E2; [|discriminate].
  destruct (check_index 3 i3 n3) as [j3|] eqn:E3; [|discriminate].
  intros [= <-].
  apply check_index_Ok in E0, E1, E2, E3. repeat split; lia.
Qed.


Lemma digit_bounds (a b A n : Z) :
  0 ≤ a < A → 0 ≤ b < n → 0 ≤ a * n + b < A * n.
Proof. nia. Qed.

Lemma digit_unique (a b a' b' n : Z) :
  0 ≤ b < n → 0 ≤ b' < n → a * n + b = a' * n + b' → a = a' ∧ b = b'.
Proof.
  intros Hb Hb' E.
  assert (a = a') as ->.
  { destruct (Z.lt_trichotomy a a') as [H|[H|H]]; [nia|exact H|nia]. }
  split; [reflexivity|lia].
Qed.

Lemma ravel_lt (sh ix : shape4) :
  in_range sh ix → (ravel sh ix < Z.to_nat (np_size sh))%nat.
Proof.
  destruct sh as [[[n0 n1] n2] n3], ix as [[[i0 i1] i2] i3].
  intros (H0 & H1 & H2 & H3). unfold ravel, np_size.
  pose proof (digit_bounds i0 i1 n0 n1 H0 H1) as B1.
  pose proof (digit_bounds _ i2 _ n2 B1 H2) as B2.
  pose proof (digit_bounds _ i3 _ n3 B2 H3) as B3.
  lia.
Qed.

Lemma ravel_inj (sh ix jx : shape4) :
  in_range sh ix → in_range sh jx → ravel sh ix = ravel sh jx → ix = jx.
Proof.
  destruct sh as [[[n0 n1] n2] n3], ix as [[[i0 i1] i2] i3],
    jx as [[[j0 j1] j2] j3].
  intros (H0 & H1 & H2 & H3) (K0 & K1 & K2 & K3). unfold ravel. intros E.
  pose proof (digit_bounds i0 i1 n0 n1 H0 H1) as B1.
  pose proof (digit_bounds _ i2 _ n2 B1 H2) as B2.
  pose proof (digit_bounds _ i3 _ n3 B2 H3) as B3.
  pose proof (digit_bounds j0 j1 n0 n1 K0 K1) as C1.
  pose proof (digit_bounds _ j2 _ n2 C1 K2) as C2.
  pose proof (digit_bounds _ j3 _ n3 C2 K3) as C3.
  apply Z2Nat.inj in E; [|lia|lia].
  apply digit_unique in E as [E <-]; [|lia|lia].
  apply digit_unique in E as [E <-]; [|lia|lia].
  apply digit_unique in E as [<- <-]; [|lia|lia].
  reflexivity.
Qed.

Lemma check_index_mod (ax : nat) (i n j : Z) :
  check_index ax i n = Ok j ↔ - n ≤ i < n ∧ j = i mod n.
Proof.
  unfold check_index.
  destruct ((0 <=? i) && (i <? n)) eqn:E1.
  - apply andb_true_iff in E1 as [E1 E1'].
    rewrite Z.mod_small by lia. split.
    + intros [= <-]. lia.
    + intros [_ ->]. reflexivity.
  - destruct ((- n <=? i) && (i <? 0)) eqn:E2.
    + apply andb_true_iff in E2 as [E2 E2'].
      assert (i mod n = i + n) as ->.
      { rewrite <- (Z.mod_add i 1 n) by lia.
        replace (i + 1 * n) with (i + n) by lia. apply Z.mod_small. lia. }
      split.
      * intros [= <-]. lia.
      * intros [_ ->]. reflexivity.
    + split; [discriminate|]. intros [H _]. exfalso.
      apply andb_false_iff in E1, E2. lia.
Qed.

Lemma normalize_cell (sh ix jx : shape4) :
  normalize sh ix = Ok jx ↔ subscript sh ix ∧ jx = cell_of sh ix.
Proof.
  destruct sh as [[[n0 n1] n2] n3], ix as [[[i0 i1] i2] i3].
  unfold normalize, subscript, cell_of. split.
  - destruct (check_index 0 i0 n0) as [j0|] eqn:E0; [|discriminate].
    destruct (check_index 1 i1 n1) as [j1|] eqn:E1; [|discriminate].
    destruct (check_index 2 i2 n2) as [j2|] eqn:E2; [|discriminate].
    destruct (check_index 3 i3 n3) as [j3|] eqn:E3; [|discriminate].
    intros [= <-].
    apply check_index_mod in E0 as [H0 ->], E1 as [H1 ->],
      E2 as [H2 ->], E3 as [H3 ->].
    auto.
  - intros [(H0 & H1 & H2 & H3) ->].
    rewrite (proj2 (check_index_mod 0 i0 n0 _) (conj H0 eq_refl)).
    rewrite (proj2 (check_index_mod 1 i1 n1 _) (conj H1 eq_refl)).
    rewrite (proj2 (check_index_mod 2 i2 n2 _) (conj H2 eq_refl)).
    rewrite (proj2 (check_index_mod 3 i3 n3 _) (conj H3 eq_refl)).
    reflexivity.
Qed.

Lemma wf_length (g : ndarray) :
  wf g → length (data g) = Z.to_nat (np_size (shape g)).
Proof.
  unfold wf. destruct (shape g) as [[[n0 n1] n2] n3]. tauto.
Qed.


End Subscripts.

(** ** Reductions along axis 0 *)

Section Reductions.

Lemma Qmin_cases (x y : Q) : Qmin x y = x ∨ Qmin x y = y.
Proof.
  unfold Qmin, GenericMinMax.gmin. destruct (x ?= y)%Q; auto.
Qed.

Lemma Qmax_cases (x y : Q) : Qmax x y = x ∨ Qmax x y = y.
Proof.
  unfold Qmax, GenericMinMax.gmax. destruct (x ?= y)%Q; auto.
Qed.

Lemma component_foldl_zip3 (f : Q → Q → Q) (a : axis) (ps : list (vec3 Q)) (p : vec3 Q) :
  component a (foldl (zip3 f) p ps)
  = foldl f (component a p) (map (fun q => component a q) ps).
Proof.
  revert p. induction ps as [|q ps IH]; intros p; simpl; [reflexivity|].
  rewrite IH. f_equal. destruct a; reflexivity.
Qed.

Lemma foldl_Qmin_is_min (xs : list Q) (x : Q) :
  is_min (foldl Qmin x xs) (x :: xs).
Proof.
  revert x. induction xs as [|y ys IH]; intros x; simpl.
  - split; [now left|]. constructor; [apply Qle_refl|constructor].
  - destruct (IH (Qmin x y)) as [Hin Hall].
    inversion Hall as [|? ? Hhd Htl]; subst.
    split.
    + destruct Hin as [Hin|Hin].
      * rewrite <- Hin. destruct (Qmin_cases x y) as [->| ->]; simpl; auto.
      * right. now right.
    + constructor; [|constructor; [|exact Htl]].
      * eapply Qle_trans; [exact Hhd|apply Q.le_min_l].
      * eapply Qle_trans; [exact Hhd|apply Q.le_min_r].
Qed.

Lemma foldl_Qmax_is_max (xs : list Q) (x : Q) :
  is_max (foldl Qmax x xs) (x :: xs).
Proof.
  revert x. induction xs as [|y ys IH]; intros x; simpl.
  - split; [now left|]. constructor; [apply Qle_refl|constructor].
  - destruct (IH (Qmax x y)) as [Hin Hall].
    inversion Hall as [|? ? Hhd Htl]; subst.
    split.
    + destruct Hin as [Hin|Hin].
      * rewrite <- Hin. destruct (Qmax_cases x y) as [->| ->]; simpl; auto.
      * right. now right.
    + constructor; [|constructor; [|exact Htl]].
      * eapply Qle_trans; [apply Q.le_max_l|exact Hhd].
      * eapply Qle_trans; [apply Q.le_max_r|exact Hhd].
Qed.

(** Two least elements of lists with the same members are equal rationals. *)
Lemma is_min_unique (m m' : Q) (xs xs' : list Q) :
  is_min m xs → is_min m' xs' → (∀ x, In x xs ↔ In x xs') → (m == m')%Q.
Proof.
  intros [Hin Hall] [Hin' Hall'] Hmem.
  rewrite Forall_forall in Hall, Hall'.
  apply Qle_antisym.
  - apply Hall. apply list_elem_of_In, Hmem, Hin'.
  - apply Hall'. apply list_elem_of_In, Hmem, Hin.
Qed.

Lemma is_max_unique (m m' : Q) (xs xs' : list Q) :
  is_max m xs → is_max m' xs' → (∀ x, In x xs ↔ In x xs') → (m == m')%Q.
Proof.
  intros [Hin Hall] [Hin' Hall'] Hmem.
  rewrite Forall_forall in Hall, Hall'.
  apply Qle_antisym.
  - apply Hall'. apply list_elem_of_In, Hmem, Hin.
  - apply Hall. apply list_elem_of_In, Hmem, Hin'.
Qed.

Lemma reduce_axis0_min (atoms : list atom) (lo : vec3 Q) (a : axis) :
  reduce_axis0 Qmin (pos atoms) = Ok lo →
  is_min (component a lo) (column a atoms).
Proof.
  unfold column. destruct (pos atoms) as [|p ps]; simpl; [discriminate|].
  intros [= <-]. rewrite component_foldl_zip3. apply foldl_Qmin_is_min.
Qed.

Lemma reduce_axis0_max (atoms : list atom) (hi : vec3 Q) (a : axis) :
  reduce_axis0 Qmax (pos atoms) = Ok hi →
  is_max (component a hi) (column a atoms).
Proof.
  unfold column. destruct (pos atoms) as [|p ps]; simpl; [discriminate|].
  intros [= <-]. rewrite component_foldl_zip3. apply foldl_Qmax_is_max.
Qed.

Lemma bounding_box_inv (atoms : list atom) (bb : bbox) :
  bounding_box atoms = Ok bb →
  ∃ lo hi,
    reduce_axis0 Qmin (pos atoms) = Ok lo ∧
    reduce_axis0 Qmax (pos atoms) = Ok hi ∧
    bb = (map3 np_floor lo, map3 np_ceil hi).
Proof.
  unfold bounding_box.
  destruct (reduce_axis0 Qmin (pos atoms)) as [lo|] eqn:El; [|discriminate].
  destruct (reduce_axis0 Qmax (pos atoms)) as [hi|] eqn:Eh; [|discriminate].
  intros [= <-]. now exists lo, hi.
Qed.

Lemma bounding_box_nonempty (atoms : list atom) :
  atoms ≠ [] → ∃ bb, bounding_box atoms = Ok bb.
Proof.
  destruct atoms as [|a rest]; [congruence|]. intros _.
  unfold bounding_box. simpl. eauto.
Qed.

Lemma component_map3 {A B : Type} (f : A → B) (a : axis) (v : vec3 A) :
  component a (map3 f v) = f (component a v).
Proof. destruct a; reflexivity. Qed.

Lemma component_zip3 {A B C : Type} (f : A → B → C) (a : axis) (v : vec3 A) (w : vec3 B) :
  component a (zip3 f v w) = f (component a v) (component a w).
Proof. destruct a; reflexivity. Qed.

Lemma column_In (a : axis) (atoms : list atom) (x : atom) :
  In x atoms → In (component a (coords x)) (column a atoms).
Proof.
  intros H. unfold column, pos. rewrite map_map.
  apply (in_map (fun y => component a (coords y))), H.
Qed.

End Reductions.

(** ** [list.index] *)

Section Index.

Lemma index_from_Ok (l : list string) (x : string) (i c : Z) :
  index_from l x i = Ok c → In x l ∧ i ≤ c < i + Z.of_nat (length l).
Proof.
  revert i. induction l as [|y l IH]; intros i; simpl; [discriminate|].
  destruct (String.eqb y x) eqn:E.
  - intros [= <-]. apply String.eqb_eq in E. split; [now left|lia].
  - intros H. apply IH in H as [Hin Hc]. split; [now right|lia].
Qed.

Lemma index_from_Raise (l : list string) (x : string) (i : Z) (e : exn) :
  index_from l x i = Raise e → e = ValueError_not_in_list x ∧ ¬ In x l.
Proof.
  revert i. induction l as [|y l IH]; intros i; simpl.
  - intros [= <-]. split; [reflexivity|tauto].
  - destruct (String.eqb y x) eqn:E; [discriminate|].
    intros H. apply IH in H as [-> Hn]. split; [reflexivity|].
    intros [->|Hin]; [|tauto]. now rewrite String.eqb_refl in E.
Qed.

Lemma index_not_in (l : list string) (x : string) :
  ¬ In x l → index l x = Raise (ValueError_not_in_list x).
Proof.
  intros Hn. unfold index. destruct (index_from l x 0) as [c|e] eqn:E.
  - apply index_from_Ok in E. tauto.
  - apply index_from_Raise in E as [-> _]. reflexivity.
Qed.

Lemma index_in (l : list string) (x : string) :
  In x l → ∃ c, index l x = Ok c ∧ 0 ≤ c < Z.of_nat (length l).
Proof.
  intros Hin. unfold index. destruct (index_from l x 0) as [c|e] eqn:E.
  - exists c. split; [reflexivity|]. apply index_from_Ok in E. lia.
  - apply index_from_Raise in E. tauto.
Qed.

Lemma index_from_first (l : list string) (s : string) (i c : Z) :
  index_from l s i = Ok c ↔
  i ≤ c ∧ l !! Z.to_nat (c - i) = Some s ∧
  ∀ j, (j < Z.to_nat (c - i))%nat → l !! j ≠ Some s.
Proof.
  revert i. induction l as [|y l IH]; intros i; simpl.
  - split; [discriminate|]. intros (_ & H & _). discriminate H.
  - destruct (String.eqb y s) eqn:E.
    + apply String.eqb_eq in E. subst y. split.
      * intros [= <-]. replace (i - i) with 0 by lia.
        split; [lia|]. split; [reflexivity|]. intros j Hj. simpl in Hj. lia.
      * intros (Hle & Hl & Hfirst).
        destruct (Z.to_nat (c - i)) as [|n] eqn:En.
        -- f_equal. lia.
        -- exfalso. apply (Hfirst 0%nat); [lia|reflexivity].
    + apply String.eqb_neq in E. rewrite IH. split.
      * intros (Hle & Hl & Hfirst).
        replace (Z.to_nat (c - i)) with (S (Z.to_nat (c - (i + 1)))) by lia.
        split; [lia|]. split; [exact Hl|].
        intros [|j] Hj; simpl; [congruence|]. apply Hfirst. lia.
      * intros (Hle & Hl & Hfirst).
        destruct (Z.to_nat (c - i)) as [|n] eqn:En.
        -- simpl in Hl. congruence.
        -- replace (Z.to_nat (c - (i + 1))) with n by lia.
           split; [lia|]. split; [exact Hl|].
           intros j Hj. apply (Hfirst (S j)). lia.
Qed.

Lemma index_symbols_lookup (s : string) (c : Z) :
  index symbols s = Ok c ↔ 0 ≤ c ∧ symbols !! Z.to_nat c = Some s.
Proof.
  unfold index. rewrite index_from_first. replace (c - 0) with c by lia.
  split; [tauto|]. intros [Hc Hl].
  split; [exact Hc|]. split; [exact Hl|].
  intros j Hj Hj'.
  assert (NoDup symbols) as Hnd.
  { unfold symbols. repeat constructor; rewrite ?elem_of_cons, ?elem_of_nil;
      intros H; repeat destruct H as [H|H]; congruence. }
  pose proof (NoDup_lookup _ _ _ _ Hnd Hj' Hl). lia.
Qed.

End Index.

(** ** One iteration of the loop *)

Section LoopBody.

Variable bb : bbox.

Lemma rasterize_atom_target (g : ndarray) (a : atom) :
  rasterize_atom bb g a =
  match target bb (shape g) a with
  | Ok o => Ok (NDArray (shape g) (<[o := 1%Q]> (data g)))
  | Raise e => Raise e
  end.
Proof.
  unfold rasterize_atom, target, setitem.
  destruct (index symbols (symbol a)) as [c|e]; cbn -[normalize ravel];
    [|reflexivity].
  destruct (normalize (shape g) _) as [jx|e]; reflexivity.
Qed.

Lemma target_lt (g : ndarray) (a : atom) (o : nat) :
  wf g → target bb (shape g) a = Ok o → (o < length (data g))%nat.
Proof.
  intros Hwf. rewrite (wf_length g Hwf). unfold target.
  destruct (index symbols (symbol a)) as [c|e]; cbn -[normalize ravel];
    [|discriminate].
  destruct (normalize (shape g) _) as [jx|e] eqn:En; cbn -[ravel];
    [|discriminate].
  intros [= <-]. apply ravel_lt. eapply normalize_Ok, En.
Qed.

Lemma rasterize_atom_shape (g g' : ndarray) (a : atom) :
  rasterize_atom bb g a = Ok g' → shape g' = shape g.
Proof.
  rewrite rasterize_atom_target.
  destruct (target bb (shape g) a); [|discriminate]. now intros [= <-].
Qed.

Lemma rasterize_atom_wf (g g' : ndarray) (a : atom) :
  wf g → rasterize_atom bb g a = Ok g' → wf g'.
Proof.
  rewrite rasterize_atom_target.
  destruct (target bb (shape g) a); [|discriminate]. intros Hwf [= <-].
  unfold wf in *. simpl. destruct (shape g) as [[[n0 n1] n2] n3].
  now rewrite length_insert.
Qed.

Lemma rasterize_atom_binary (g g' : ndarray) (a : atom) :
  binary g → rasterize_atom bb g a = Ok g' → binary g'.
Proof.
  rewrite rasterize_atom_target.
  destruct (target bb (shape g) a); [|discriminate]. intros Hb [= <-].
  unfold binary in *. simpl. apply Forall_insert; auto.
Qed.

Lemma insert_one_keeps (d : list Q) (o o' : nat) :
  d !! o' = Some 1%Q → <[o := 1%Q]> d !! o' = Some 1%Q.
Proof.
  intros H. rewrite list_lookup_insert. case_decide; [reflexivity|exact H].
Qed.

Lemma rasterize_atom_mono (g g' : ndarray) (a : atom) (o : nat) :
  rasterize_atom bb g a = Ok g' →
  data g !! o = Some 1%Q → data g' !! o = Some 1%Q.
Proof.
  rewrite rasterize_atom_target.
  destruct (target bb (shape g) a); [|discriminate]. intros [= <-]. simpl.
  apply insert_one_keeps.
Qed.

End LoopBody.

(** ** The loop *)

Section Loop.

Variable bb : bbox.

Lemma rasterize_shape (l : list atom) (g : ndarray) :
  shape (fst (rasterize bb g l)) = shape g.
Proof.
  revert g. induction l as [|a l IH]; intros g; simpl; [reflexivity|].
  destruct (rasterize_atom bb g a) as [g'|e] eqn:E; [|reflexivity].
  rewrite IH. eapply rasterize_atom_shape, E.
Qed.

Lemma rasterize_wf (l : list atom) (g : ndarray) :
  wf g → wf (fst (rasterize bb g l)).
Proof.
  revert g. induction l as [|a l IH]; intros g Hwf; simpl; [exact Hwf|].
  destruct (rasterize_atom bb g a) as [g'|e] eqn:E; [|exact Hwf].
  apply IH. eapply rasterize_atom_wf; eauto.
Qed.

Lemma rasterize_binary (l : list atom) (g : ndarray) :
  binary g → binary (fst (rasterize bb g l)).
Proof.
  revert g. induction l as [|a l IH]; intros g Hb; simpl; [exact Hb|].
  destruct (rasterize_atom bb g a) as [g'|e] eqn:E; [|exact Hb].
  apply IH. eapply rasterize_atom_binary; eauto.
Qed.

Lemma rasterize_mono (l : list atom) (g : ndarray) (o : nat) :
  data g !! o = Some 1%Q → data (fst (rasterize bb g l)) !! o = Some 1%Q.
Proof.
  revert g. induction l as [|a l IH]; intros g H; simpl; [exact H|].
  destruct (rasterize_atom bb g a) as [g'|e] eqn:E; [|exact H].
  apply IH. eapply rasterize_atom_mono; eauto.
Qed.

Lemma rasterize_app (l1 l2 : list atom) (g : ndarray) :
  rasterize bb g (l1 ++ l2) =
  match rasterize bb g l1 with
  | (g1, None) => rasterize bb g1 l2
  | (g1, Some e) => (g1, Some e)
  end.
Proof.
  revert g. induction l1 as [|a l1 IH]; intros g; simpl; [reflexivity|].
  destruct (rasterize_atom bb g a) as [g'|e]; [apply IH|reflexivity].
Qed.

(** The state after [k] iterations is the state the full loop passes
    through: the rest of the loop starts from it. *)
Lemma rasterize_resume (atoms : list atom) (g : ndarray) (k : nat) :
  rasterize bb g atoms =
  match rasterize bb g (take k atoms) with
  | (g1, None) => rasterize bb g1 (drop k atoms)
  | (g1, Some e) => (g1, Some e)
  end.
Proof. rewrite <- rasterize_app. now rewrite take_drop. Qed.

Lemma state_after_step (atoms : list atom) (g : ndarray) (k k' : nat) :
  (k ≤ k')%nat →
  state_after bb g atoms k' =
  fst (match rasterize bb g (take k atoms) with
       | (g1, None) => rasterize bb g1 (take (k' - k) (drop k atoms))
       | (g1, Some e) => (g1, Some e)
       end).
Proof.
  intros Hk. unfold state_after. rewrite <- rasterize_app.
  do 2 f_equal.
  rewrite <- (take_drop k (take k' atoms)) at 1.
  rewrite take_take, Nat.min_l by exact Hk.
  f_equal. rewrite skipn_firstn_comm. reflexivity.
Qed.

Lemma insert_one_lookup (d : list Q) (x o : nat) :
  <[x := 1%Q]> d !! o =
  if decide (x = o) then (fun _ => 1%Q) <$> d !! o else d !! o.
Proof.
  rewrite list_lookup_insert.
  destruct (decide (x = o)) as [->|Hne].
  - destruct (d !! o) as [v|] eqn:E.
    + apply lookup_lt_Some in E. rewrite decide_True by tauto. reflexivity.
    + apply lookup_ge_None in E. rewrite decide_False by lia. reflexivity.
  - rewrite decide_False by tauto. reflexivity.
Qed.

Lemma paint_lookup (offs : list nat) (d : list Q) (o : nat) :
  paint d offs !! o =
  if decide (o ∈ offs) then (fun _ => 1%Q) <$> d !! o else d !! o.
Proof.
  revert d. induction offs as [|x offs IH]; intros d.
  - destruct (decide (o ∈ @nil nat)) as [H|_]; [|reflexivity].
    now apply elem_of_nil in H.
  - change (paint d (x :: offs)) with (paint (<[x := 1%Q]> d) offs).
    rewrite IH, insert_one_lookup.
    destruct (decide (x = o)) as [->|Hne].
    + rewrite (decide_True (P := o ∈ o :: offs)) by apply list_elem_of_here.
      destruct (decide (o ∈ offs)); [|reflexivity].
      now destruct (d !! o).
    + destruct (decide (o ∈ offs)) as [Hin|Hout].
      * rewrite decide_True by (now apply list_elem_of_further). reflexivity.
      * rewrite decide_False; [reflexivity|].
        rewrite elem_of_cons. intros [->|?]; tauto.
Qed.

Lemma paint_same_members (offs offs' : list nat) (d : list Q) :
  (∀ o, o ∈ offs ↔ o ∈ offs') → paint d offs = paint d offs'.
Proof.
  intros H. apply list_eq. intros o. rewrite !paint_lookup.
  destruct (decide (o ∈ offs)) as [Hin|Hout].
  - rewrite decide_True by (now apply H). reflexivity.
  - rewrite decide_False; [reflexivity|]. now rewrite <- H.
Qed.

Lemma completed_rasterize (l : list atom) (g : ndarray) :
  completed (rasterize bb g l) =
  if forallb (accepted bb (shape g)) l
  then Some (NDArray (shape g) (paint (data g) (omap (target_opt bb (shape g)) l)))
  else None.
Proof.
  revert g. induction l as [|a l IH]; intros g.
  - simpl. now destruct g.
  - simpl. rewrite rasterize_atom_target. unfold accepted at 1, target_opt at 1.
    destruct (target bb (shape g) a) as [o|e]; [|reflexivity].
    rewrite IH. reflexivity.
Qed.

Lemma forallb_same_members (f : atom → bool) (l l' : list atom) :
  (∀ x, x ∈ l ↔ x ∈ l') → forallb f l = forallb f l'.
Proof.
  intros H. apply eq_true_iff_eq. rewrite !forallb_forall.
  split; intros Hall x Hx; apply Hall;
    apply list_elem_of_In; apply list_elem_of_In in Hx; now apply H.
Qed.

Lemma completed_same_members (l l' : list atom) (g : ndarray) :
  (∀ x, x ∈ l ↔ x ∈ l') →
  completed (rasterize bb g l) = completed (rasterize bb g l').
Proof.
  intros H. rewrite !completed_rasterize.
  rewrite (forallb_same_members _ l l' H).
  destruct (forallb _ l'); [|reflexivity].
  do 2 f_equal. apply paint_same_members. intros o.
  rewrite !list_elem_of_omap. split; intros (x & Hx & E); exists x;
    (split; [now apply H|exact E]).
Qed.

End Loop.

(** ** The bounding box and the allocation *)

Section Box.

Lemma vec3_eq {A : Type} (v w : vec3 A) :
  (∀ a, component a v = component a w) → v = w.
Proof.
  intros H. destruct v as [x y z], w as [x' y' z'].
  pose proof (H ax0) as E0. pose proof (H ax1) as E1. pose proof (H ax2) as E2.
  simpl in *. congruence.
Qed.

Lemma voxel_index_component (bb : bbox) (x : atom) (a : axis) :
  component a (voxel_index bb x)
  = to_int64 (Qfloor (component a (coords x) - component a (fst bb))).
Proof.
  unfold voxel_index. rewrite component_map3, component_zip3.
  apply astype_int_np_floor.
Qed.

Lemma box_size_component (lo hi : vec3 Q) (a : axis) :
  component a (box_size (map3 np_floor lo, map3 np_ceil hi))
  = to_int64 (Qceiling (component a hi) - Qfloor (component a lo)).
Proof.
  unfold box_size. simpl. rewrite component_map3, component_zip3, !component_map3.
  apply astype_int_minus_Z.
Qed.

Lemma box_size_int64 (bb : bbox) (a : axis) :
  - 2 ^ 63 ≤ component a (box_size bb) < 2 ^ 63.
Proof.
  unfold box_size. rewrite component_map3. unfold astype_int.
  apply to_int64_range.
Qed.

Lemma box_size_to_int64 (atoms : list atom) (bb : bbox) (a : axis) :
  bounding_box atoms = Ok bb → component a (box_size bb) = to_int64 (extent bb a).
Proof.
  intros H. apply bounding_box_inv in H as (lo & hi & _ & _ & ->).
  rewrite box_size_component. unfold extent. cbn [fst snd].
  rewrite !component_map3. unfold np_floor, np_ceil.
  now rewrite Qfloor_Z, Qceiling_Z.
Qed.

Lemma extent_nonneg (atoms : list atom) (bb : bbox) (a : axis) :
  bounding_box atoms = Ok bb → 0 ≤ extent bb a.
Proof.
  intros H. apply bounding_box_inv in H as (lo & hi & Hlo & Hhi & ->).
  unfold extent. cbn [fst snd]. rewrite !component_map3.
  unfold np_floor, np_ceil. rewrite Qfloor_Z, Qceiling_Z.
  destruct (reduce_axis0_min atoms lo a Hlo) as [Hin _].
  destruct (reduce_axis0_max atoms hi a Hhi) as [_ Hall].
  rewrite Forall_forall in Hall.
  apply list_elem_of_In, Hall in Hin.
  apply Qceiling_floor_le in Hin. lia.
Qed.

(** A dimension that [np.zeros] does not refuse is the extent of the box,
    and so is one whose extent is an int64. *)
Lemma box_size_extent (atoms : list atom) (bb : bbox) (a : axis) :
  bounding_box atoms = Ok bb → 0 ≤ component a (box_size bb) →
  component a (box_size bb) = extent bb a.
Proof.
  intros H Hnn. rewrite (box_size_to_int64 atoms bb a H) in Hnn |- *.
  apply to_int64_exact. lia.
Qed.

Lemma box_size_small (atoms : list atom) (bb : bbox) (a : axis) :
  bounding_box atoms = Ok bb → extent bb a < 2 ^ 63 →
  component a (box_size bb) = extent bb a.
Proof.
  intros H Hlt. rewrite (box_size_to_int64 atoms bb a H).
  pose proof (extent_nonneg atoms bb a H).
  apply to_int64_fits. lia.
Qed.

(** Where every atom of the set the box was computed from lands, when
    the dimension is one that [np.zeros] does not refuse. *)
Lemma voxel_index_bounds (atoms : list atom) (bb : bbox) (x : atom) (a : axis) :
  bounding_box atoms = Ok bb → In x atoms → 0 ≤ component a (box_size bb) →
  component a (voxel_index bb x)
  = Qfloor (component a (coords x) - component a (fst bb)) ∧
  0 ≤ component a (voxel_index bb x) ≤ component a (box_size bb) ∧
  (component a (voxel_index bb x) < component a (box_size bb)
   ↔ (component a (coords x) < component a (snd bb))%Q).
Proof.
  intros H Hx Hnn.
  pose proof (box_size_int64 bb a) as Hi.
  rewrite (box_size_extent atoms bb a H Hnn) in Hi |- *.
  apply bounding_box_inv in H as (lo & hi & Hlo & Hhi & ->).
  rewrite voxel_index_component. unfold extent in *. cbn [fst snd] in *.
  rewrite !component_map3 in *. unfold np_floor, np_ceil in *.
  rewrite Qfloor_Z, Qceiling_Z in Hi |- *.
  rewrite Qfloor_minus_Z.
  destruct (reduce_axis0_min atoms lo a Hlo) as [_ Hmin].
  destruct (reduce_axis0_max atoms hi a Hhi) as [_ Hmax].
  rewrite Forall_forall in Hmin, Hmax.
  pose proof (column_In a atoms x Hx) as Hc. apply list_elem_of_In in Hc.
  pose proof (Hmin _ Hc) as Hge. pose proof (Hmax _ Hc) as Hle.
  apply Qfloor_resp_le in Hge. apply Qceiling_floor_le in Hle.
  rewrite to_int64_fits by lia.
  split; [reflexivity|]. split; [lia|]. split; intros Hlt.
  - eapply Qlt_le_trans; [apply Qlt_floor|].
    rewrite <- Zle_Qle. lia.
  - apply Qfloor_upper in Hlt. lia.
Qed.

Lemma check_dims_Ok (dims : list Z) (nbytes m : Z) :
  check_dims dims nbytes = Ok m → Forall (fun n => 0 ≤ n) dims.
Proof.
  revert nbytes. induction dims as [|n rest IH]; intros nbytes; simpl.
  - intros _. constructor.
  - destruct (n =? 0) eqn:E0.
    + intros H. constructor; [lia|eapply IH, H].
    + destruct (n <? 0) eqn:E1; [discriminate|].
      destruct (2 ^ 63 - 1 <? nbytes * n); [discriminate|].
      intros H. constructor; [lia|eapply IH, H].
Qed.

Lemma check_dims_not_negative (dims : list Z) (nbytes : Z) :
  Forall (fun n => 0 ≤ n) dims →
  check_dims dims nbytes ≠ Raise ValueError_negative_dimensions.
Proof.
  intros H. revert nbytes. induction H as [|n rest Hn _ IH]; intros nbytes; simpl.
  - discriminate.
  - destruct (n =? 0); [apply IH|].
    destruct (n <? 0) eqn:E1; [lia|].
    destruct (2 ^ 63 - 1 <? nbytes * n); [discriminate|apply IH].
Qed.

Lemma np_zeros_Ok (sh : shape4) (g : ndarray) :
  np_zeros sh = Ok g →
  g = NDArray sh (replicate (Z.to_nat (np_size sh)) 0%Q) ∧ wf g ∧ binary g.
Proof.
  unfold np_zeros. destruct sh as [[[n0 n1] n2] n3].
  destruct (check_dims [n0; n1; n2; n3] 8) as [m|e] eqn:E; [|discriminate].
  intros [= <-]. apply check_dims_Ok in E.
  apply Forall_cons in E as [E0 E]. apply Forall_cons in E as [E1 E].
  apply Forall_cons in E as [E2 E]. apply Forall_cons in E as [E3 _].
  split; [reflexivity|]. split.
  - unfold wf. simpl. rewrite length_replicate. repeat split; lia.
  - unfold binary. simpl. apply Forall_replicate. now left.
Qed.

Lemma np_zeros_not_negative (n0 n1 n2 n3 : Z) :
  0 ≤ n0 → 0 ≤ n1 → 0 ≤ n2 → 0 ≤ n3 →
  np_zeros (n0, n1, n2, n3) ≠ Raise ValueError_negative_dimensions.
Proof.
  intros H0 H1 H2 H3. unfold np_zeros.
  pose proof (check_dims_not_negative [n0; n1; n2; n3] 8) as Hc.
  destruct (check_dims [n0; n1; n2; n3] 8) as [m|e]; [discriminate|].
  intros [= ->]. apply Hc; [|reflexivity].
  repeat constructor; assumption.
Qed.

Lemma getitem_zeros (sh ix : shape4) (g : ndarray) :
  np_zeros sh = Ok g → in_range sh ix → getitem g ix = Some 0%Q.
Proof.
  intros H Hix. apply np_zeros_Ok in H as (-> & _ & _).
  unfold getitem. simpl. rewrite normalize_in_range by exact Hix.
  apply lookup_replicate_2, ravel_lt, Hix.
Qed.

(** The allocation of the notebook, taken apart. *)
Lemma grid_Ok (bs : vec3 Z) (g0 : ndarray) :
  grid bs = Ok g0 →
  np_zeros (v0 bs, v1 bs, v2 bs, 4) = Ok g0 ∧
  shape g0 = (v0 bs, v1 bs, v2 bs, 4) ∧
  ∀ a, 0 ≤ component a bs.
Proof.
  unfold grid. intros H. split; [exact H|].
  apply np_zeros_Ok in H as (-> & Hwf & _). split; [reflexivity|].
  unfold wf in Hwf. cbn [shape] in Hwf.
  intros [| |]; cbn [component]; lia.
Qed.

Lemma same_members_nil (l : list atom) :
  (∀ x, x ∈ l ↔ x ∈ @nil atom) → l = [].
Proof.
  destruct l as [|a l]; [reflexivity|]. intros H.
  exfalso. eapply not_elem_of_nil, H, list_elem_of_here.
Qed.

Lemma column_same_members (a : axis) (l l' : list atom) :
  (∀ x, x ∈ l ↔ x ∈ l') → ∀ q, In q (column a l) ↔ In q (column a l').
Proof.
  intros H q. unfold column, pos. rewrite !map_map, !in_map_iff.
  split; intros (x & E & Hx); exists x; (split; [exact E|]);
    apply list_elem_of_In; apply list_elem_of_In in Hx; now apply H.
Qed.

(** The box depends only on which atoms are present. *)
Lemma bounding_box_same_members (l l' : list atom) :
  (∀ x, x ∈ l ↔ x ∈ l') → bounding_box l = bounding_box l'.
Proof.
  intros H.
  destruct l as [|a l].
  { now rewrite (same_members_nil l') by (intros x; symmetry; apply H). }
  destruct l' as [|a' l'].
  { now rewrite (same_members_nil (a :: l)) by exact H. }
  destruct (bounding_box_nonempty (a :: l)) as [bb E]; [discriminate|].
  destruct (bounding_box_nonempty (a' :: l')) as [bb' E']; [discriminate|].
  rewrite E, E'. f_equal.
  apply bounding_box_inv in E as (lo & hi & Hlo & Hhi & ->).
  apply bounding_box_inv in E' as (lo' & hi' & Hlo' & Hhi' & ->).
  f_equal; apply vec3_eq; intros ax; rewrite !component_map3.
  - unfold np_floor. f_equal. apply Qfloor_comp.
    eapply is_min_unique;
      [eapply reduce_axis0_min, Hlo|eapply reduce_axis0_min, Hlo'|].
    apply column_same_members, H.
  - unfold np_ceil. f_equal. apply Qceiling_comp.
    eapply is_max_unique;
      [eapply reduce_axis0_max, Hhi|eapply reduce_axis0_max, Hhi'|].
    apply column_same_members, H.
Qed.

End Box.

(** ** Inversion of one iteration, and the whole notebook *)

Section Inversion.

Lemma check_index_Raise (ax : nat) (i n : Z) (e : exn) :
  check_index ax i n = Raise e → e = IndexError ax i n.
Proof.
  unfold check_index.
  destruct ((0 <=? i) && (i <? n)); [discriminate|].
  destruct ((- n <=? i) && (i <? 0)); [discriminate|].
  now intros [= <-].
Qed.

Lemma normalize_Raise (sh ix : shape4) (e : exn) :
  normalize sh ix = Raise e → ∃ ax i n, e = IndexError ax i n.
Proof.
  destruct sh as [[[n0 n1] n2] n3], ix as [[[i0 i1] i2] i3].
  unfold normalize.
  destruct (check_index 0 i0 n0) as [j0|e0] eqn:E0; cbn -[check_index];
    [|intros [= <-]; apply check_index_Raise in E0; eauto].
  destruct (check_index 1 i1 n1) as [j1|e1] eqn:E1; cbn -[check_index];
    [|intros [= <-]; apply check_index_Raise in E1; eauto].
  destruct (check_index 2 i2 n2) as [j2|e2] eqn:E2; cbn -[check_index];
    [|intros [= <-]; apply check_index_Raise in E2; eauto].
  destruct (check_index 3 i3 n3) as [j3|e3] eqn:E3; cbn -[check_index];
    [discriminate|intros [= <-]; apply check_index_Raise in E3; eauto].
Qed.

Lemma check_index_nonneg (ax : nat) (i n j : Z) :
  0 ≤ i → check_index ax i n = Ok j → j = i.
Proof.
  intros Hi. unfold check_index.
  destruct ((0 <=? i) && (i <? n)); [now intros [= <-]|].
  destruct ((- n <=? i) && (i <? 0)) eqn:E; [|discriminate].
  apply andb_true_iff in E. lia.
Qed.

Lemma normalize_channel (sh : shape4) (i0 i1 i2 c : Z) (tgt : shape4) :
  0 ≤ c → normalize sh (i0, i1, i2, c) = Ok tgt → snd tgt = c.
Proof.
  destruct sh as [[[n0 n1] n2] n3]. intros Hc. unfold normalize.
  destruct (check_index 0 i0 n0) as [j0|]; [|discriminate].
  destruct (check_index 1 i1 n1) as [j1|]; [|discriminate].
  destruct (check_index 2 i2 n2) as [j2|]; [|discriminate].
  destruct (check_index 3 c n3) as [j3|] eqn:E3; [|discriminate].
  intros [= <-]. simpl. eapply check_index_nonneg; eauto.
Qed.


(** An atom is accepted when its symbol is found and numpy takes its
    voxel index as a subscript. *)
Lemma accepted_iff (bb : bbox) (sh : shape4) (a : atom) :
  accepted bb sh a = true ↔
  ∃ c tgt,
    index symbols (symbol a) = Ok c ∧
    normalize sh
      (v0 (voxel_index bb a), v1 (voxel_index bb a), v2 (voxel_index bb a), c)
    = Ok tgt.
Proof.
  unfold accepted, target.
  destruct (index symbols (symbol a)) as [c|e]; cbn -[normalize ravel].
  - destruct (normalize sh _) as [tgt|e] eqn:En; cbn -[ravel]; split.
    + intros _. exists c, tgt. auto.
    + reflexivity.
    + discriminate.
    + intros (c' & tgt & [= <-] & H). congruence.
  - split; [discriminate|]. intros (c & tgt & H & _). discriminate H.
Qed.

Lemma rasterize_atom_Raise (bb : bbox) (g : ndarray) (a : atom) (e : exn) :
  rasterize_atom bb g a = Raise e →
  (e = ValueError_not_in_list (symbol a) ∧ ¬ In (symbol a) symbols)
  ∨ (In (symbol a) symbols ∧ ∃ ax i n, e = IndexError ax i n).
Proof.
  unfold rasterize_atom, setitem.
  destruct (index symbols (symbol a)) as [c|e0] eqn:Ei; cbn -[normalize ravel].
  - destruct (normalize (shape g) _) as [tgt|e1] eqn:En; cbn -[ravel];
      [discriminate|].
    intros [= <-]. right. split.
    + apply index_from_Ok in Ei. tauto.
    + eapply normalize_Raise, En.
  - intros [= <-]. left. apply index_from_Raise in Ei. exact Ei.
Qed.

Lemma final_grid_unfold (atoms : list atom) :
  final_grid atoms =
  match bounding_box atoms with
  | Ok bb =>
      match grid (box_size bb) with
      | Ok g => completed (rasterize bb g atoms)
      | Raise _ => None
      end
  | Raise _ => None
  end.
Proof.
  unfold final_grid, voxelize.
  destruct (bounding_box atoms) as [bb|e]; [|reflexivity].
  cbn -[grid box_size rasterize completed].
  destruct (grid (box_size bb)) as [g|e]; reflexivity.
Qed.

Lemma final_grid_same_members (l l' : list atom) :
  (∀ x, x ∈ l ↔ x ∈ l') → final_grid l = final_grid l'.
Proof.
  intros H. rewrite !final_grid_unfold.
  rewrite (bounding_box_same_members l l' H).
  destruct (bounding_box l') as [bb|e]; [|reflexivity].
  destruct (grid (box_size bb)) as [g|e]; [|reflexivity].
  apply completed_same_members, H.
Qed.

Lemma final_grid_binary (atoms : list atom) (g : ndarray) :
  final_grid atoms = Some g → binary g.
Proof.
  rewrite final_grid_unfold.
  destruct (bounding_box atoms) as [bb|e]; [|discriminate].
  destruct (grid (box_size bb)) as [g0|e] eqn:Eg; [|discriminate].
  unfold grid in Eg. apply np_zeros_Ok in Eg as (_ & _ & Hb).
  pose proof (rasterize_binary bb atoms g0 Hb) as Hfin.
  destruct (rasterize bb g0 atoms) as [g1 [e|]]; simpl; [discriminate|].
  now intros [= <-].
Qed.


Lemma rasterize_None_inv (bb : bbox) (g g1 : ndarray) (l : list atom) :
  rasterize bb g l = (g1, None) →
  forallb (accepted bb (shape g)) l = true ∧
  g1 = NDArray (shape g) (paint (data g) (omap (target_opt bb (shape g)) l)).
Proof.
  intros H. pose proof (completed_rasterize bb l g) as Hc.
  rewrite H in Hc. simpl in Hc.
  destruct (forallb (accepted bb (shape g)) l); [|discriminate].
  split; [reflexivity|congruence].
Qed.

Lemma rasterize_completes (bb : bbox) (g : ndarray) (l : list atom) :
  forallb (accepted bb (shape g)) l = true →
  rasterize bb g l =
  (NDArray (shape g) (paint (data g) (omap (target_opt bb (shape g)) l)), None).
Proof.
  intros H. pose proof (completed_rasterize bb l g) as Hc.
  rewrite H in Hc.
  destruct (rasterize bb g l) as [g1 [e|]]; simpl in Hc; congruence.
Qed.

Lemma paint_again (d : list Q) (offs : list nat) (o : nat) :
  o ∈ offs → <[o := 1%Q]> (paint d offs) = paint d offs.
Proof.
  intros Hin. apply list_eq. intros i. rewrite insert_one_lookup.
  destruct (decide (o = i)) as [<-|]; [|reflexivity].
  rewrite paint_lookup, decide_True by exact Hin.
  now destruct (d !! o).
Qed.

(** Storing an atom a second time leaves the array as it is. *)
Lemma rasterize_atom_again (bb : bbox) (g g1 : ndarray) (l : list atom) (a : atom) :
  rasterize bb g l = (g1, None) → In a l → rasterize_atom bb g1 a = Ok g1.
Proof.
  intros H Hin. apply rasterize_None_inv in H as [Hall ->].
  rewrite forallb_forall in Hall. specialize (Hall a Hin).
  rewrite rasterize_atom_target. cbn [shape data].
  unfold accepted in Hall.
  destruct (target bb (shape g) a) as [o|e] eqn:Et; [|discriminate].
  do 2 f_equal. apply paint_again.
  apply list_elem_of_omap. exists a. split; [now apply list_elem_of_In|].
  unfold target_opt. now rewrite Et.
Qed.

Lemma rasterize_duplicate_after (bb : bbox) (g : ndarray) (l1 l2 : list atom) (a : atom) :
  In a l1 → rasterize bb g (l1 ++ a :: l2) = rasterize bb g (l1 ++ l2).
Proof.
  intros Hin. rewrite !rasterize_app.
  destruct (rasterize bb g l1) as [g1 [e|]] eqn:E; [reflexivity|].
  simpl. now rewrite (rasterize_atom_again bb g g1 l1 a E Hin).
Qed.

Lemma same_members_insert (l1 l2 : list atom) (a : atom) :
  In a (l1 ++ l2) → ∀ x, x ∈ l1 ++ a :: l2 ↔ x ∈ l1 ++ l2.
Proof.
  intros Hin x. apply list_elem_of_In in Hin.
  rewrite !elem_of_app, elem_of_cons.
  split; [intros [H|[->|H]]|intros [H|H]]; auto.
  now apply elem_of_app in Hin.
Qed.

Lemma voxelize_duplicate_after (l1 l2 : list atom) (a : atom) :
  In a l1 → voxelize (l1 ++ a :: l2) = voxelize (l1 ++ l2).
Proof.
  intros Hin. unfold voxelize.
  rewrite (bounding_box_same_members (l1 ++ a :: l2) (l1 ++ l2))
    by (apply same_members_insert, in_or_app; now left).
  destruct (bounding_box (l1 ++ l2)) as [bb|e]; [|reflexivity].
  cbn -[grid box_size rasterize].
  destruct (grid (box_size bb)) as [g|e]; [|reflexivity].
  cbn -[rasterize]. f_equal. now apply rasterize_duplicate_after.
Qed.

Lemma state_after_all (bb : bbox) (g : ndarray) (atoms : list atom) :
  state_after bb g atoms (length atoms) = fst (rasterize bb g atoms).
Proof. unfold state_after. now rewrite firstn_all. Qed.

End Inversion.

(** * Properties stated by the specification *)

Section Properties.

(** C1.  With the box computed from the atoms themselves, the voxel
    index of an atom sitting on an integral maximum is not below
    box_size.  On [on_max_face] the second atom has x = 2.0, the box is
    [0,2]x[0,1]x[0,1], the array has shape (2,1,1,4), and the index of
    that atom along axis 0 is 2 = box_size: the store raises IndexError
    after the first atom has been written.  ([voxel_index_bounds] gives
    what holds for every atom of a box that [np.zeros] does not refuse:
    0 <= index <= box_size, with index < box_size exactly when the
    coordinate is below the upper corner.) *)
Theorem C1_index_on_max_face_out_of_bounds :
  bounding_box on_max_face = Ok (V3 0 0 0, V3 2 1 1)%Q ∧
  box_size (V3 0 0 0, V3 2 1 1)%Q = V3 2 1 1 ∧
  voxel_index (V3 0 0 0, V3 2 1 1)%Q (Atom (V3 2.0 0.5 0.5)%Q "N") = V3 2 0 0 ∧
  voxelize on_max_face =
    Ok (NDArray (2, 1, 1, 4) [1; 0; 0; 0;  0; 0; 0; 0]%Q, Some (IndexError 0 2 2)).
Proof. repeat split; vm_compute; reflexivity. Qed.

(** C2.  The scenario of the specification: box (0,0,0)-(2,2,1), shape
    (2,2,1,4), cells [0,0,0,0] and [1,1,0,1] set, every other cell 0. *)
Theorem C2_scenario :
  bounding_box scenario = Ok (V3 0 0 0, V3 2 2 1)%Q ∧
  ∃ g, voxelize scenario = Ok (g, None) ∧
       shape g = (2, 2, 1, 4) ∧
       getitem g (0, 0, 0, 0) = Some 1%Q ∧
       getitem g (1, 1, 0, 1) = Some 1%Q ∧
       ∀ ix, in_range (shape g) ix → ix ≠ (0, 0, 0, 0) → ix ≠ (1, 1, 0, 1) →
             getitem g ix = Some 0%Q.
Proof.
  split; [vm_compute; reflexivity|].
  eexists. split; [apply scenario_runs|].
  repeat split.
  intros [[[i0 i1] i2] i3] (H0 & H1 & H2 & H3) Ha Hb. simpl in *.
  assert (i0 = 0 ∨ i0 = 1) as [-> | ->] by lia;
  assert (i1 = 0 ∨ i1 = 1) as [-> | ->] by lia;
  assert (i2 = 0) as -> by lia;
  assert (i3 = 0 ∨ i3 = 1 ∨ i3 = 2 ∨ i3 = 3) as [-> | [-> | [-> | ->]]] by lia;
  first [congruence | reflexivity].
Qed.

(** C3.  For a non-empty atom list [bounding_box] succeeds; its lower
    corner is the floor of a least coordinate and its upper corner the
    ceiling of a greatest coordinate on every axis, and both corners are
    integral. *)
Theorem C3_bounding_box_floor_min_ceil_max (atoms : list atom) :
  atoms ≠ [] →
  ∃ lo hi,
    bounding_box atoms = Ok (map3 np_floor lo, map3 np_ceil hi) ∧
    ∀ a,
      is_min (component a lo) (column a atoms) ∧
      is_max (component a hi) (column a atoms) ∧
      component a (map3 np_floor lo) = inject_Z (Qfloor (component a lo)) ∧
      component a (map3 np_ceil hi) = inject_Z (Qceiling (component a hi)) ∧
      integral (component a (map3 np_floor lo)) ∧
      integral (component a (map3 np_ceil hi)).
Proof.
  intros Hne. destruct (bounding_box_nonempty atoms Hne) as [bb E].
  pose proof E as E'.
  apply bounding_box_inv in E' as (lo & hi & Hlo & Hhi & ->).
  exists lo, hi. split; [exact E|]. intros a.
  rewrite !component_map3.
  repeat split.
  - eapply reduce_axis0_min, Hlo.
  - eapply Forall_forall. intros x Hx.
    destruct (reduce_axis0_min atoms lo a Hlo) as [_ H].
    rewrite Forall_forall in H. now apply H.
  - eapply reduce_axis0_max, Hhi.
  - eapply Forall_forall. intros x Hx.
    destruct (reduce_axis0_max atoms hi a Hhi) as [_ H].
    rewrite Forall_forall in H. now apply H.
  - apply np_floor_integral.
  - apply np_ceil_integral.
Qed.

Lemma C3_witness :
  scenario ≠ [] ∧
  ∃ lo hi,
    bounding_box scenario = Ok (map3 np_floor lo, map3 np_ceil hi) ∧
    ∀ a,
      is_min (component a lo) (column a scenario) ∧
      is_max (component a hi) (column a scenario) ∧
      component a (map3 np_floor lo) = inject_Z (Qfloor (component a lo)) ∧
      component a (map3 np_ceil hi) = inject_Z (Qceiling (component a hi)) ∧
      integral (component a (map3 np_floor lo)) ∧
      integral (component a (map3 np_ceil hi)).
Proof.
  split; [discriminate|].
  apply (C3_bounding_box_floor_min_ceil_max scenario). discriminate.
Defined.

(** C4, as the specification states it, fails on two atoms 10^19 apart:
    the extent of the box along axis 0 is 10^19, which is no int64, so
    [box_size] holds the least int64 there and [np.zeros] refuses the
    negative dimension: no array is allocated. *)
Lemma C4_counterexample :
  bounding_box far_apart = Ok (V3 0 0 0, V3 1e19 1 1)%Q ∧
  extent (V3 0 0 0, V3 1e19 1 1)%Q ax0 = 10 ^ 19 ∧
  box_size (V3 0 0 0, V3 1e19 1 1)%Q = V3 (- 2 ^ 63) 1 1 ∧
  grid (box_size (V3 0 0 0, V3 1e19 1 1)%Q) = Raise ValueError_negative_dimensions ∧
  ¬ ∃ g, grid (box_size (V3 0 0 0, V3 1e19 1 1)%Q) = Ok g ∧
         shape g = (extent (V3 0 0 0, V3 1e19 1 1)%Q ax0,
                    extent (V3 0 0 0, V3 1e19 1 1)%Q ax1,
                    extent (V3 0 0 0, V3 1e19 1 1)%Q ax2,
                    Z.of_nat (length symbols)).
Proof.
  split; [vm_compute; reflexivity|].
  split; [vm_compute; reflexivity|].
  split; [vm_compute; reflexivity|].
  assert (grid (box_size (V3 0 0 0, V3 1e19 1 1)%Q)
          = Raise ValueError_negative_dimensions) as E
    by (vm_compute; reflexivity).
  split; [exact E|].
  intros (g & Hg & _). rewrite E in Hg. discriminate Hg.
Qed.

(** C4, amended.  For a box returned by [bounding_box] whose extent
    ceil(max) - floor(min) is below 2^53 on every axis, the extent is not
    negative, [box_size] is that extent, and [np.zeros] does not refuse a
    dimension as negative; whenever it returns the array, the shape is
    the extent on the three axes followed by one entry per symbol of the
    alphabet, and every cell is 0. *)
Theorem C4_grid_shape_and_zeros_when_allocated (atoms : list atom) (bb : bbox) :
  bounding_box atoms = Ok bb →
  (∀ a, extent bb a < 2 ^ 53) →
  (∀ a, 0 ≤ extent bb a) ∧
  (∀ a, component a (box_size bb) = extent bb a) ∧
  grid (box_size bb) ≠ Raise ValueError_negative_dimensions ∧
  ∀ g,
    grid (box_size bb) = Ok g →
    shape g = (extent bb ax0, extent bb ax1, extent bb ax2,
               Z.of_nat (length symbols)) ∧
    data g = replicate (Z.to_nat (np_size (shape g))) 0%Q ∧
    (∀ ix, in_range (shape g) ix → getitem g ix = Some 0%Q).
Proof.
  intros H Hlt.
  assert (∀ a, 0 ≤ extent bb a) as Hnn
    by (intros a; eapply extent_nonneg, H).
  assert (∀ a, component a (box_size bb) = extent bb a) as Hbs.
  { intros a. apply (box_size_small atoms); [exact H|].
    specialize (Hlt a). lia. }
  pose proof (Hbs ax0) as E0. pose proof (Hbs ax1) as E1.
  pose proof (Hbs ax2) as E2. cbn [component] in E0, E1, E2.
  split; [exact Hnn|]. split; [exact Hbs|]. split.
  - unfold grid. rewrite E0, E1, E2.
    apply np_zeros_not_negative; try apply Hnn. lia.
  - intros g Hg. apply grid_Ok in Hg as (Hz & Hsh & _).
    rewrite E0, E1, E2 in Hsh.
    split; [exact Hsh|]. split.
    + apply np_zeros_Ok in Hz as (-> & _ & _). reflexivity.
    + intros ix Hix. eapply getitem_zeros; [exact Hz|].
      rewrite E0, E1, E2, <- Hsh. exact Hix.
Qed.

Lemma C4_witness :
  bounding_box scenario = Ok scenario_box ∧
  (∀ a, extent scenario_box a < 2 ^ 53) ∧
  ∃ g,
    grid (box_size scenario_box) = Ok g ∧
    shape g = (extent scenario_box ax0, extent scenario_box ax1,
               extent scenario_box ax2, Z.of_nat (length symbols)) ∧
    data g = replicate (Z.to_nat (np_size (shape g))) 0%Q ∧
    (∀ ix, in_range (shape g) ix → getitem g ix = Some 0%Q).
Proof.
  assert (bounding_box scenario = Ok scenario_box) as Hbb
    by (vm_compute; reflexivity).
  assert (∀ a, extent scenario_box a < 2 ^ 53) as Hlt
    by (intros [| |]; vm_compute; reflexivity).
  split; [exact Hbb|]. split; [exact Hlt|].
  destruct (C4_grid_shape_and_zeros_when_allocated scenario scenario_box Hbb Hlt)
    as (_ & _ & _ & Hg).
  exists zeros_2214. split; [vm_compute; reflexivity|].
  apply Hg. vm_compute. reflexivity.
Defined.

(** An allocation numpy refuses for its size: a box 2^21 wide on every
    axis needs 2^68 bytes. *)
Example wide_box_too_big :
  voxelize wide_box = Raise ValueError_array_is_too_big.
Proof. vm_compute. reflexivity. Qed.

(** C8.  [bounding_box] raises the empty-reduction error exactly on the
    empty list, and returns a box exactly on the non-empty ones. *)
Theorem C8_bounding_box_empty_iff (atoms : list atom) :
  (bounding_box atoms = Raise ValueError_zero_size_reduction ↔ atoms = []) ∧
  ((∃ bb, bounding_box atoms = Ok bb) ↔ atoms ≠ []).
Proof.
  destruct atoms as [|a rest].
  - split; split.
    + reflexivity.
    + intros _. reflexivity.
    + intros [bb H]. discriminate H.
    + intros H. now contradiction H.
  - destruct (bounding_box_nonempty (a :: rest)) as [bb E]; [discriminate|].
    split; split.
    + rewrite E. discriminate.
    + discriminate.
    + discriminate.
    + intros _. eauto.
Qed.



(** C6.  Adding a second copy of an atom that is already present, at any
    place of the sequence, does not change the array the notebook ends
    with, and that array holds only 0 and 1.  When the copy comes after
    an occurrence of the atom (for one, when it is appended), the whole
    outcome of the notebook is the same: the same array and, if a cell
    raises, the same exception at the same state of the array. *)
Theorem C6_duplicate_atom (l1 l2 : list atom) (a : atom) :
  In a (l1 ++ l2) →
  final_grid (l1 ++ a :: l2) = final_grid (l1 ++ l2) ∧
  (In a l1 → voxelize (l1 ++ a :: l2) = voxelize (l1 ++ l2)) ∧
  (∀ g, final_grid (l1 ++ a :: l2) = Some g → binary g).
Proof.
  intros Hin. split; [|split].
  - apply final_grid_same_members, same_members_insert, Hin.
  - apply voxelize_duplicate_after.
  - intros g. apply final_grid_binary.
Qed.

Lemma C6_witness :
  In (Atom (V3 0.2 0.3 0.1)%Q "C") (scenario ++ []) ∧
  final_grid (scenario ++ [Atom (V3 0.2 0.3 0.1)%Q "C"]) = final_grid (scenario ++ []) ∧
  final_grid (scenario ++ [])
  = Some (NDArray (2, 2, 1, 4)
            [1; 0; 0; 0;  0; 0; 0; 0;  0; 0; 0; 0;  0; 1; 0; 0]%Q).
Proof.
  assert (In (Atom (V3 0.2 0.3 0.1)%Q "C") (scenario ++ [])) as Hin.
  { simpl. left. reflexivity. }
  split; [exact Hin|]. split.
  - apply (C6_duplicate_atom scenario [] (Atom (V3 0.2 0.3 0.1)%Q "C") Hin).
  - vm_compute. reflexivity.
Defined.

(** C7.  An iteration raises the not-in-list error exactly when the
    atom's symbol is missing from [symbols], and the error carries that
    symbol; the loop stops there with the array as it was, whatever the
    atom's position.  An atom whose symbol is in [symbols] never raises
    it.  "P" is such a missing symbol. *)
Theorem C7_unknown_element (bb : bbox) (g : ndarray) (a : atom) (rest : list atom) :
  (∀ s, rasterize_atom bb g a = Raise (ValueError_not_in_list s)
        ↔ s = symbol a ∧ ¬ In s symbols) ∧
  (¬ In (symbol a) symbols →
   rasterize bb g (a :: rest) = (g, Some (ValueError_not_in_list (symbol a)))) ∧
  (In (symbol a) symbols →
   ∀ s, rasterize_atom bb g a ≠ Raise (ValueError_not_in_list s)) ∧
  (∀ p, rasterize_atom bb g (Atom p "P") = Raise (ValueError_not_in_list "P")).
Proof.
  assert (∀ x, ¬ In (symbol x) symbols →
            rasterize_atom bb g x = Raise (ValueError_not_in_list (symbol x))) as Hmiss.
  { intros x Hn. unfold rasterize_atom. now rewrite index_not_in. }
  assert (∀ s, rasterize_atom bb g a = Raise (ValueError_not_in_list s)
               → s = symbol a ∧ ¬ In s symbols) as Honly.
  { intros s H. apply rasterize_atom_Raise in H as [[E Hn]|[_ (ax & i & n & E)]].
    - injection E as ->. auto.
    - discriminate E. }
  split; [|split; [|split]].
  - intros s. split; [apply Honly|]. intros [-> Hn]. now apply Hmiss.
  - intros Hn. simpl. now rewrite Hmiss.
  - intros Hin s H. apply Honly in H as [-> Hn]. contradiction.
  - intros p. apply (Hmiss (Atom p "P")). simpl.
    intros [H|[H|[H|[H|[]]]]]; discriminate H.
Qed.

Lemma C7_witness :
  rasterize scenario_box zeros_2214
    (Atom (V3 0.2 0.3 0.1)%Q "P" :: scenario)
  = (zeros_2214, Some (ValueError_not_in_list "P")).
Proof.
  destruct (C7_unknown_element scenario_box zeros_2214
              (Atom (V3 0.2 0.3 0.1)%Q "P") scenario) as (_ & Hstop & _ & _).
  apply Hstop. simpl. intros [H|[H|[H|[H|[]]]]]; discriminate H.
Defined.

(** C9, as the specification states it, fails on [on_max_face]: both
    symbols are in the alphabet, but the second atom's index is refused.
    Taken in the given order the loop stores the first atom and then
    raises; taken in the other order it raises at once.  The two runs
    leave different arrays. *)
Lemma C9_counterexample :
  (∀ a, In a on_max_face → In (symbol a) symbols) ∧
  Permutation on_max_face (rev on_max_face) ∧
  rasterize (V3 0 0 0, V3 2 1 1)%Q zeros_2114 on_max_face
  = (NDArray (2, 1, 1, 4) [1; 0; 0; 0;  0; 0; 0; 0]%Q, Some (IndexError 0 2 2)) ∧
  rasterize (V3 0 0 0, V3 2 1 1)%Q zeros_2114 (rev on_max_face)
  = (NDArray (2, 1, 1, 4) [0; 0; 0; 0;  0; 0; 0; 0]%Q, Some (IndexError 0 2 2)) ∧
  fst (rasterize (V3 0 0 0, V3 2 1 1)%Q zeros_2114 on_max_face)
  ≠ fst (rasterize (V3 0 0 0, V3 2 1 1)%Q zeros_2114 (rev on_max_face)).
Proof.
  split.
  { intros a [<-|[<-|[]]]; simpl; auto. }
  split; [apply Permutation_rev|].
  split; [vm_compute; reflexivity|].
  split; [vm_compute; reflexivity|].
  vm_compute. discriminate.
Qed.

(** C9, amended.  When every symbol is in the alphabet and numpy accepts
    the subscript of every atom (its voxel index with its channel) for
    the array, the loop runs to the end in every order of the atoms, and
    every order leaves the same array. *)
Theorem C9_order_independent_when_stored (bb : bbox) (g : ndarray) (l l' : list atom) :
  Permutation l l' →
  (∀ a, In a l → In (symbol a) symbols) →
  (∀ a c, In a l → index symbols (symbol a) = Ok c →
          subscript (shape g)
            (v0 (voxel_index bb a), v1 (voxel_index bb a), v2 (voxel_index bb a), c)) →
  ∃ gf, rasterize bb g l = (gf, None) ∧ rasterize bb g l' = (gf, None).
Proof.
  intros Hp Hsym Hsub.
  assert (∀ x, x ∈ l ↔ x ∈ l') as Hmem.
  { intros x. rewrite !list_elem_of_In. split; apply Permutation_in;
      [exact Hp|symmetry; exact Hp]. }
  assert (forallb (accepted bb (shape g)) l = true) as Hall.
  { apply forallb_forall. intros a Ha. apply accepted_iff.
    destruct (index_in symbols (symbol a) (Hsym a Ha)) as (c & Hc & _).
    exists c. eexists. split; [exact Hc|].
    apply normalize_cell. split; [|reflexivity]. now apply Hsub. }
  pose proof (completed_same_members bb l l' g Hmem) as Hc.
  rewrite (rasterize_completes bb g l Hall) in Hc |- *.
  eexists. split; [reflexivity|].
  destruct (rasterize bb g l') as [g2 [e2|]]; simpl in Hc; congruence.
Qed.

Lemma C9_witness :
  Permutation scenario (rev scenario) ∧
  ∃ gf, rasterize scenario_box zeros_2214 scenario = (gf, None) ∧
        rasterize scenario_box zeros_2214 (rev scenario) = (gf, None).
Proof.
  split; [apply Permutation_rev|].
  apply (C9_order_independent_when_stored scenario_box zeros_2214
           scenario (rev scenario)).
  - apply Permutation_rev.
  - intros a [<-|[<-|[]]]; simpl; auto.
  - intros a c [<-|[<-|[]]] Hc; vm_compute in Hc; injection Hc as <-;
      vm_compute; repeat split; discriminate.
Defined.

(** C10.  Starting from the array of zeros, the array after any number
    of iterations holds only 0 and 1, and a cell that is 1 after [k]
    iterations is 1 after any later number [k'] of iterations. *)
Theorem C10_binary_and_monotone
    (bb : bbox) (sh : shape4) (g0 : ndarray) (atoms : list atom) (k k' : nat) :
  np_zeros sh = Ok g0 → (k ≤ k')%nat →
  Forall (fun v => v = 0%Q) (data g0) ∧
  state_after bb g0 atoms 0 = g0 ∧
  state_after bb g0 atoms (length atoms) = fst (rasterize bb g0 atoms) ∧
  binary (state_after bb g0 atoms k) ∧
  (∀ o, data (state_after bb g0 atoms k) !! o = Some 1%Q →
        data (state_after bb g0 atoms k') !! o = Some 1%Q).
Proof.
  intros Hz Hk. apply np_zeros_Ok in Hz as (Hg0 & _ & Hb).
  split; [rewrite Hg0; simpl; now apply Forall_replicate|].
  split; [reflexivity|].
  split; [apply state_after_all|].
  split; [apply rasterize_binary, Hb|].
  intros o. rewrite (state_after_step bb atoms g0 k k' Hk). unfold state_after.
  destruct (rasterize bb g0 (take k atoms)) as [g1 [e|]]; simpl; [tauto|].
  apply rasterize_mono.
Qed.

Lemma C10_witness :
  np_zeros (2, 2, 1, 4) = Ok zeros_2214 ∧
  binary (state_after scenario_box zeros_2214 scenario 1) ∧
  (data (state_after scenario_box zeros_2214 scenario 1) !! 0%nat = Some 1%Q →
   data (state_after scenario_box zeros_2214 scenario 2) !! 0%nat = Some 1%Q).
Proof.
  assert (np_zeros (2, 2, 1, 4) = Ok zeros_2214) as Hz by reflexivity.
  assert (1 ≤ 2)%nat as Hk by lia.
  split; [exact Hz|].
  destruct (C10_binary_and_monotone scenario_box (2, 2, 1, 4) zeros_2214
              scenario 1 2 Hz Hk) as (_ & _ & _ & Hb & Hm).
  split; [exact Hb|apply Hm].
Defined.

End Properties.

(** * Further properties of the notebook *)

(** ** What the finished array holds, and when the loop finishes *)

Section Occupancy.

Lemma target_Ok_iff (bb : bbox) (sh : shape4) (a : atom) (o : nat) :
  target bb sh a = Ok o ↔
  ∃ c jx,
    index symbols (symbol a) = Ok c ∧
    normalize sh
      (v0 (voxel_index bb a), v1 (voxel_index bb a), v2 (voxel_index bb a), c)
    = Ok jx ∧
    o = ravel sh jx.
Proof.
  unfold target. cbv zeta.
  destruct (index symbols (symbol a)) as [c|e].
  - change (normalize sh
              (v0 (voxel_index bb a), v1 (voxel_index bb a),
               v2 (voxel_index bb a), c) ≫= (fun jx => mret (ravel sh jx)) = Ok o
            ↔ ∃ c0 jx, Ok c = Ok c0 ∧
                normalize sh
                  (v0 (voxel_index bb a), v1 (voxel_index bb a),
                   v2 (voxel_index bb a), c0) = Ok jx ∧ o = ravel sh jx).
    destruct (normalize sh
                (v0 (voxel_index bb a), v1 (voxel_index bb a),
                 v2 (voxel_index bb a), c)) as [jx|e] eqn:En.
    + change (Ok (ravel sh jx) = Ok o ↔
              ∃ c0 jx0, Ok c = Ok c0 ∧
                normalize sh
                  (v0 (voxel_index bb a), v1 (voxel_index bb a),
                   v2 (voxel_index bb a), c0) = Ok jx0 ∧ o = ravel sh jx0).
      split.
      * intros [= <-]. exists c, jx. auto.
      * intros (c' & jx' & [= <-] & H & ->). congruence.
    + split; [discriminate|].
      intros (c' & jx' & [= <-] & H & _). congruence.
  - split; [discriminate|]. intros (c & jx & H & _). discriminate H.
Qed.

Lemma normalize_nonneg (sh : shape4) (i0 i1 i2 i3 : Z) (tgt : shape4) :
  0 ≤ i0 → 0 ≤ i1 → 0 ≤ i2 → 0 ≤ i3 →
  normalize sh (i0, i1, i2, i3) = Ok tgt → tgt = (i0, i1, i2, i3).
Proof.
  destruct sh as [[[n0 n1] n2] n3]. intros H0 H1 H2 H3. unfold normalize.
  destruct (check_index 0 i0 n0) as [j0|] eqn:E0; [|discriminate].
  destruct (check_index 1 i1 n1) as [j1|] eqn:E1; [|discriminate].
  destruct (check_index 2 i2 n2) as [j2|] eqn:E2; [|discriminate].
  destruct (check_index 3 i3 n3) as [j3|] eqn:E3; [|discriminate].
  intros [= <-].
  apply check_index_nonneg in E0, E1, E2, E3; try assumption. congruence.
Qed.

(** After a finished loop over the array of zeros, a cell is 1 when its
    buffer offset is the target of some atom, and 0 otherwise. *)
Lemma rasterize_zeros_cell (bb : bbox) (sh ix : shape4) (g0 g : ndarray) (atoms : list atom) :
  np_zeros sh = Ok g0 → rasterize bb g0 atoms = (g, None) → in_range sh ix →
  (ravel sh ix ∈ omap (target_opt bb sh) atoms → getitem g ix = Some 1%Q) ∧
  (ravel sh ix ∉ omap (target_opt bb sh) atoms → getitem g ix = Some 0%Q).
Proof.
  intros Hz Hr Hix. apply np_zeros_Ok in Hz as (-> & _ & _).
  apply rasterize_None_inv in Hr as [_ ->]. cbn [shape data].
  unfold getitem. cbn [shape data].
  rewrite normalize_in_range by exact Hix. rewrite paint_lookup.
  rewrite (lookup_replicate_2 _ _ (ravel sh ix)) by (now apply ravel_lt).
  split; intros H.
  - now rewrite decide_True.
  - now rewrite decide_False.
Qed.

Lemma voxel_index_nonneg (atoms : list atom) (bb : bbox) (a : atom) :
  bounding_box atoms = Ok bb → In a atoms →
  (∀ ax, 0 ≤ component ax (box_size bb)) →
  0 ≤ v0 (voxel_index bb a) ∧ 0 ≤ v1 (voxel_index bb a) ∧ 0 ≤ v2 (voxel_index bb a).
Proof.
  intros Hbb Hin Hnn.
  pose proof (voxel_index_bounds atoms bb a ax0 Hbb Hin (Hnn ax0)) as (_ & H0 & _).
  pose proof (voxel_index_bounds atoms bb a ax1 Hbb Hin (Hnn ax1)) as (_ & H1 & _).
  pose proof (voxel_index_bounds atoms bb a ax2 Hbb Hin (Hnn ax2)) as (_ & H2 & _).
  cbn [component] in *. lia.
Qed.

(** A run of the notebook that got past the allocation, taken apart. *)
Lemma voxelize_unfold (atoms : list atom) (bb : bbox) (r : ndarray * option exn) :
  bounding_box atoms = Ok bb → voxelize atoms = Ok r →
  ∃ g0,
    np_zeros (v0 (box_size bb), v1 (box_size bb), v2 (box_size bb), 4) = Ok g0 ∧
    shape g0 = (v0 (box_size bb), v1 (box_size bb), v2 (box_size bb), 4) ∧
    rasterize bb g0 atoms = r ∧
    ∀ ax, 0 ≤ component ax (box_size bb).
Proof.
  intros Hbb Hv. unfold voxelize in Hv. rewrite Hbb in Hv.
  cbn -[grid box_size rasterize] in Hv.
  destruct (grid (box_size bb)) as [g0|e] eqn:Eg; [|discriminate Hv].
  cbn -[box_size rasterize] in Hv. injection Hv as Hr.
  apply grid_Ok in Eg as (Hz & Hsh & Hnn).
  exists g0. auto.
Qed.

(** Whether one atom of the set is stored, in terms of its symbol and of
    its place in the box. *)
Lemma accepted_in_own_box (atoms : list atom) (bb : bbox) (a : atom) :
  bounding_box atoms = Ok bb → In a atoms →
  (∀ ax, 0 ≤ component ax (box_size bb)) →
  accepted bb (v0 (box_size bb), v1 (box_size bb), v2 (box_size bb), 4) a = true
  ↔ In (symbol a) symbols ∧
    ∀ ax, (component ax (coords a) < component ax (snd bb))%Q.
Proof.
  intros Hbb Hin Hnn.
  destruct (voxel_index_nonneg atoms bb a Hbb Hin Hnn) as (N0 & N1 & N2).
  pose proof (fun ax => proj2 (voxel_index_bounds atoms bb a ax Hbb Hin (Hnn ax)))
    as Hb.
  rewrite accepted_iff. split.
  - intros (c & tgt & Hc & Ht).
    pose proof Hc as Hc'. apply index_from_Ok in Hc' as [Hs Hc'].
    split; [exact Hs|].
    pose proof Ht as Hr. apply normalize_Ok in Hr.
    apply normalize_nonneg in Ht; [|lia..]. subst tgt.
    destruct Hr as (R0 & R1 & R2 & _).
    intros [| |]; apply (Hb _); cbn [component]; lia.
  - intros [Hs Hlt].
    destruct (index_in symbols (symbol a) Hs) as (c & Hc & Hc4).
    exists c. eexists. split; [exact Hc|].
    apply normalize_in_range. simpl in Hc4.
    pose proof (proj2 (proj2 (Hb ax0)) (Hlt ax0)) as L0.
    pose proof (proj2 (proj2 (Hb ax1)) (Hlt ax1)) as L1.
    pose proof (proj2 (proj2 (Hb ax2)) (Hlt ax2)) as L2.
    cbn [component] in L0, L1, L2. repeat split; lia.
Qed.

End Occupancy.

Section RunProperties.

Lemma Qfloor_eq_iff (q : Q) (z : Z) :
  Qfloor q = z ↔ (inject_Z z <= q ∧ q < inject_Z (z + 1))%Q.
Proof.
  split.
  - intros <-. split; [apply Qfloor_le|apply Qlt_floor].
  - intros [Hle Hlt]. apply Qfloor_resp_le in Hle. rewrite Qfloor_Z in Hle.
    apply Qfloor_upper in Hlt. lia.
Qed.

(** The atoms whose store goes to a given cell of the array. *)
Lemma target_member_iff
    (atoms : list atom) (bb : bbox) (sh : shape4) (i j k c : Z) :
  bounding_box atoms = Ok bb → in_range sh (i, j, k, c) →
  (∀ ax, 0 ≤ component ax (box_size bb)) →
  ravel sh (i, j, k, c) ∈ omap (target_opt bb sh) atoms ↔
  ∃ a, In a atoms ∧ voxel_index bb a = V3 i j k ∧
       index symbols (symbol a) = Ok c.
Proof.
  intros Hbb Hix Hnn. rewrite list_elem_of_omap. split.
  - intros (a & Ha & Ht). apply list_elem_of_In in Ha.
    unfold target_opt in Ht.
    destruct (target bb sh a) as [o|e] eqn:Et; [|discriminate].
    injection Ht as ->.
    apply target_Ok_iff in Et as (c' & jx & Hc & Hn & Er).
    pose proof (normalize_Ok _ _ _ Hn) as Hjx.
    apply ravel_inj in Er; [|exact Hix|exact Hjx]. subst jx.
    destruct (voxel_index_nonneg atoms bb a Hbb Ha Hnn) as (N0 & N1 & N2).
    apply normalize_nonneg in Hn; [|lia|lia|lia|].
    2:{ apply index_from_Ok in Hc. lia. }
    injection Hn as E0 E1 E2 E3. subst c'.
    exists a. split; [exact Ha|]. split; [|exact Hc].
    rewrite E0, E1, E2. reflexivity.
  - intros (a & Ha & Hidx & Hc). exists a.
    split; [now apply list_elem_of_In|].
    unfold target_opt.
    replace (target bb sh a) with (@Ok nat (ravel sh (i, j, k, c)));
      [reflexivity|].
    symmetry. apply target_Ok_iff. exists c, (i, j, k, c).
    rewrite Hidx. cbn [v0 v1 v2].
    split; [exact Hc|]. split; [|reflexivity].
    now apply normalize_in_range.
Qed.

(** A finished run of the notebook, taken apart. *)
Lemma voxelize_finished (atoms : list atom) (bb : bbox) (g : ndarray) :
  bounding_box atoms = Ok bb → voxelize atoms = Ok (g, None) →
  ∃ g0,
    np_zeros (shape g) = Ok g0 ∧ rasterize bb g0 atoms = (g, None) ∧
    shape g = (v0 (box_size bb), v1 (box_size bb), v2 (box_size bb), 4) ∧
    ∀ ax, 0 ≤ component ax (box_size bb).
Proof.
  intros Hbb Hv.
  destruct (voxelize_unfold atoms bb _ Hbb Hv) as (g0 & Hz & Hsh & Hr & Hnn).
  assert (shape g = shape g0) as Esh.
  { pose proof (rasterize_shape bb atoms g0) as E. now rewrite Hr in E. }
  exists g0. rewrite Esh, Hsh. auto.
Qed.

(** X1.  When the notebook runs to the end, a cell [i, j, k, c] of the
    array is 1 exactly when some atom has voxel index (i, j, k) and its
    symbol at position c of [symbols]; every other cell is 0. *)
Theorem X1_cell_is_one_iff_atom_inside
    (atoms : list atom) (bb : bbox) (g : ndarray) (i j k c : Z) :
  bounding_box atoms = Ok bb →
  voxelize atoms = Ok (g, None) →
  in_range (shape g) (i, j, k, c) →
  (getitem g (i, j, k, c) = Some 1%Q ∨ getitem g (i, j, k, c) = Some 0%Q) ∧
  (getitem g (i, j, k, c) = Some 1%Q ↔
   ∃ a, In a atoms ∧ voxel_index bb a = V3 i j k ∧
        index symbols (symbol a) = Ok c).
Proof.
  intros Hbb Hv Hix.
  destruct (voxelize_finished atoms bb g Hbb Hv) as (g0 & Hz & Hr & _ & Hnn).
  destruct (rasterize_zeros_cell bb (shape g) (i, j, k, c) g0 g atoms Hz Hr Hix)
    as [Hone Hzero].
  pose proof (target_member_iff atoms bb (shape g) i j k c Hbb Hix Hnn) as Hmem.
  destruct (decide (ravel (shape g) (i, j, k, c)
                    ∈ omap (target_opt bb (shape g)) atoms)) as [Hin|Hout].
  - specialize (Hone Hin). split; [now left|].
    split; [intros _; now apply Hmem|intros _; exact Hone].
  - specialize (Hzero Hout). split; [now right|].
    split.
    + rewrite Hzero. discriminate.
    + intros H. exfalso. apply Hout. now apply Hmem.
Qed.

Lemma X1_witness :
  getitem
    (NDArray (2, 2, 1, 4) [1; 0; 0; 0;  0; 0; 0; 0;  0; 0; 0; 0;  0; 1; 0; 0]%Q)
    (1, 1, 0, 1) = Some 1%Q ↔
  ∃ a, In a scenario ∧ voxel_index scenario_box a = V3 1 1 0 ∧
       index symbols (symbol a) = Ok 1.
Proof.
  apply (X1_cell_is_one_iff_atom_inside scenario scenario_box
           (NDArray (2, 2, 1, 4)
              [1; 0; 0; 0;  0; 0; 0; 0;  0; 0; 0; 0;  0; 1; 0; 0]%Q) 1 1 0 1).
  - vm_compute. reflexivity.
  - vm_compute. reflexivity.
  - simpl. lia.
Defined.

(** X2.  For a box of less than 2^53 per axis whose array [np.zeros]
    returns, and atoms whose differences pos[i] - box.min are doubles,
    the notebook runs to the end of the loop exactly when every atom's
    symbol is in [symbols] and every atom lies strictly below the upper
    corner of the box on all three axes. *)
Theorem X2_runs_to_the_end_iff (atoms : list atom) (bb : bbox) (g0 : ndarray) :
  bounding_box atoms = Ok bb →
  (∀ ax, extent bb ax < 2 ^ 53) →
  grid (box_size bb) = Ok g0 →
  (∀ a ax, In a atoms → binary64 (offset_in_box bb a ax)) →
  (∃ g, voxelize atoms = Ok (g, None)) ↔
  (∀ a, In a atoms →
        In (symbol a) symbols ∧
        ∀ ax, (component ax (coords a) < component ax (snd bb))%Q).
Proof.
  intros Hbb _ Hg _.
  assert (voxelize atoms = Ok (rasterize bb g0 atoms)) as Hv.
  { unfold voxelize. rewrite Hbb. cbn -[grid box_size rasterize].
    rewrite Hg. reflexivity. }
  apply grid_Ok in Hg as (Hz & Hsh & Hnn).
  rewrite Hv. split.
  - intros [g Hg]. injection Hg as Hr.
    apply rasterize_None_inv in Hr as [Hall _]. rewrite Hsh in Hall.
    rewrite forallb_forall in Hall. intros a Ha.
    apply (accepted_in_own_box atoms bb a Hbb Ha Hnn), Hall, Ha.
  - intros Hall.
    rewrite (rasterize_completes bb g0 atoms); [eauto|].
    rewrite Hsh. apply forallb_forall. intros a Ha.
    apply (accepted_in_own_box atoms bb a Hbb Ha Hnn), Hall, Ha.
Qed.

Lemma X2_witness :
  bounding_box dyadic = Ok scenario_box ∧
  grid (box_size scenario_box) = Ok zeros_2214 ∧
  ((∃ g, voxelize dyadic = Ok (g, None)) ↔
   (∀ a, In a dyadic →
         In (symbol a) symbols ∧
         ∀ ax, (component ax (coords a) < component ax (snd scenario_box))%Q)).
Proof.
  assert (bounding_box dyadic = Ok scenario_box) as Hbb
    by (vm_compute; reflexivity).
  assert (grid (box_size scenario_box) = Ok zeros_2214) as Hg
    by (vm_compute; reflexivity).
  split; [exact Hbb|]. split; [exact Hg|].
  apply (X2_runs_to_the_end_iff dyadic scenario_box zeros_2214 Hbb).
  - intros [| |]; vm_compute; reflexivity.
  - exact Hg.
  - intros a ax [<-|[<-|[]]]; destruct ax;
      [exists 1, (-1)|exists 1, (-2)|exists 3, (-2)
      |exists 3, (-1)|exists 5, (-2)|exists 1, (-1)];
      (split; [reflexivity|]); (split; [lia|]); vm_compute; reflexivity.
Defined.

(** X3.  Whether an atom raises depends on the box and on the shape of
    the array only, not on what was stored before; the loop stops at the
    first atom that raises, with that atom's exception and with the
    array holding the stores of the atoms before it and nothing of the
    atoms after it. *)
Theorem X3_stops_at_first_failure
    (bb : bbox) (g g1 : ndarray) (l1 l2 : list atom) (a : atom) (e : exn) :
  rasterize bb g l1 = (g1, None) →
  rasterize_atom bb g a = Raise e →
  rasterize bb g (l1 ++ a :: l2) = (g1, Some e).
Proof.
  intros H1 Ha. rewrite rasterize_app, H1. simpl.
  assert (shape g1 = shape g) as Esh.
  { pose proof (rasterize_shape bb l1 g) as E. now rewrite H1 in E. }
  rewrite rasterize_atom_target in Ha |- *. rewrite Esh.
  destruct (target bb (shape g) a) as [o|e']; [discriminate|].
  injection Ha as ->. reflexivity.
Qed.

Lemma X3_witness :
  rasterize (V3 0 0 0, V3 2 1 1)%Q (NDArray (2, 1, 1, 4) (replicate 8 0%Q))
    ([Atom (V3 0.5 0.5 0.5)%Q "C"] ++ Atom (V3 2.0 0.5 0.5)%Q "N"
       :: [Atom (V3 1.5 0.5 0.5)%Q "O"])
  = (NDArray (2, 1, 1, 4) [1; 0; 0; 0;  0; 0; 0; 0]%Q, Some (IndexError 0 2 2)).
Proof.
  apply X3_stops_at_first_failure; vm_compute; reflexivity.
Defined.

(** X4.  With the box computed from the atoms, of less than 2^53 along
    the axis, and a difference pos[i] - box.min that is a double, the
    voxel index of an atom is between 0 and box_size inclusive, and it is
    below box_size exactly when the atom's coordinate is below the upper
    corner of the box. *)
Theorem X4_index_between_zero_and_box_size
    (atoms : list atom) (bb : bbox) (a : atom) (ax : axis) :
  bounding_box atoms = Ok bb → In a atoms →
  extent bb ax < 2 ^ 53 →
  binary64 (offset_in_box bb a ax) →
  0 ≤ component ax (voxel_index bb a) ≤ component ax (box_size bb) ∧
  (component ax (voxel_index bb a) < component ax (box_size bb)
   ↔ (component ax (coords a) < component ax (snd bb))%Q).
Proof.
  intros Hbb Hin Hlt _.
  assert (component ax (box_size bb) = extent bb ax) as Ebs.
  { apply (box_size_small atoms); [exact Hbb|lia]. }
  rewrite Ebs.
  pose proof Hbb as Hinv.
  apply bounding_box_inv in Hinv as (lo & hi & Hlo & Hhi & ->).
  rewrite voxel_index_component. unfold extent in *. cbn [fst snd] in *.
  rewrite !component_map3 in *. unfold np_floor, np_ceil in *.
  rewrite Qfloor_Z, Qceiling_Z in *. rewrite Qfloor_minus_Z.
  destruct (reduce_axis0_min atoms lo ax Hlo) as [_ Hmin].
  destruct (reduce_axis0_max atoms hi ax Hhi) as [_ Hmax].
  rewrite Forall_forall in Hmin, Hmax.
  pose proof (column_In ax atoms a Hin) as Hc. apply list_elem_of_In in Hc.
  pose proof (Hmin _ Hc) as Hge. pose proof (Hmax _ Hc) as Hle.
  apply Qfloor_resp_le in Hge. apply Qceiling_floor_le in Hle.
  rewrite to_int64_fits by lia.
  split; [lia|]. split; intros Hlt'.
  - eapply Qlt_le_trans; [apply Qlt_floor|]. rewrite <- Zle_Qle. lia.
  - apply Qfloor_upper in Hlt'. lia.
Qed.

Lemma X4_witness :
  binary64 (offset_in_box scenario_box (Atom (V3 1.5 1.25 0.5)%Q "N") ax0) ∧
  0 ≤ component ax0 (voxel_index scenario_box (Atom (V3 1.5 1.25 0.5)%Q "N"))
    ≤ component ax0 (box_size scenario_box).
Proof.
  assert (binary64 (offset_in_box scenario_box
                      (Atom (V3 1.5 1.25 0.5)%Q "N") ax0)) as Hb.
  { exists 3, (-1). split; [reflexivity|]. split; [lia|].
    vm_compute. reflexivity. }
  split; [exact Hb|].
  apply (X4_index_between_zero_and_box_size dyadic scenario_box
           (Atom (V3 1.5 1.25 0.5)%Q "N") ax0).
  - vm_compute. reflexivity.
  - simpl. auto.
  - vm_compute. reflexivity.
  - exact Hb.
Defined.

(** X5.  For an atom, inside the box or not, whose difference
    pos[i] - box.min along an axis is a double within the range of
    int64, the voxel index along that axis is [i] exactly when the
    coordinate lies in the half-open unit interval that starts [i] above
    the lower corner of the box: lo + i <= coordinate < lo + i + 1. *)
Theorem X5_voxel_is_unit_interval
    (atoms : list atom) (bb : bbox) (a : atom) (ax : axis) (i : Z) :
  bounding_box atoms = Ok bb →
  binary64 (offset_in_box bb a ax) →
  (inject_Z (- 2 ^ 63) <= offset_in_box bb a ax)%Q →
  (offset_in_box bb a ax < inject_Z (2 ^ 63))%Q →
  component ax (voxel_index bb a) = i ↔
  (component ax (fst bb) + inject_Z i <= component ax (coords a) ∧
   component ax (coords a) < component ax (fst bb) + inject_Z (i + 1))%Q.
Proof.
  intros Hbb _ Hlo Hhi. unfold offset_in_box in Hlo, Hhi.
  apply Qfloor_resp_le in Hlo. rewrite Qfloor_Z in Hlo.
  apply Qfloor_upper in Hhi.
  apply bounding_box_inv in Hbb as (lo & hi & _ & _ & ->).
  rewrite voxel_index_component. rewrite to_int64_fits by lia.
  cbn [fst].
  rewrite component_map3. unfold np_floor. rewrite Qfloor_minus_Z.
  set (f := Qfloor (component ax lo)). set (q := component ax (coords a)).
  split.
  - intros H. assert (Qfloor q = f + i) as E by lia.
    apply Qfloor_eq_iff in E as [E1 E2]. split.
    + rewrite <- inject_Z_plus. exact E1.
    + rewrite <- inject_Z_plus.
      replace (f + (i + 1)) with (f + i + 1) by lia. exact E2.
  - intros [H1 H2]. rewrite <- inject_Z_plus in H1, H2.
    replace (f + (i + 1)) with (f + i + 1) in H2 by lia.
    assert (Qfloor q = f + i) as E by (apply Qfloor_eq_iff; split; assumption).
    lia.
Qed.

Lemma X5_witness :
  binary64 (offset_in_box scenario_box (Atom (V3 1.5 1.25 0.5)%Q "N") ax0) ∧
  (component ax0 (voxel_index scenario_box (Atom (V3 1.5 1.25 0.5)%Q "N")) = 1 ↔
   (component ax0 (fst scenario_box) + inject_Z 1 <= 1.5 ∧
    1.5 < component ax0 (fst scenario_box) + inject_Z (1 + 1))%Q).
Proof.
  assert (binary64 (offset_in_box scenario_box
                      (Atom (V3 1.5 1.25 0.5)%Q "N") ax0)) as Hb.
  { exists 3, (-1). split; [reflexivity|]. split; [lia|].
    vm_compute. reflexivity. }
  split; [exact Hb|].
  apply (X5_voxel_is_unit_interval dyadic scenario_box
           (Atom (V3 1.5 1.25 0.5)%Q "N") ax0 1).
  - vm_compute. reflexivity.
  - exact Hb.
  - vm_compute. discriminate.
  - vm_compute. reflexivity.
Defined.



End RunProperties.

(** ** [grid.max()], [grid.min()] and [symbols.index] *)

Section ReduceAndIndex.

Lemma foldl_Qmax_one (vs : list Q) :
  Forall (fun v => v = 0%Q ∨ v = 1%Q) vs → foldl Qmax 1%Q vs = 1%Q.
Proof.
  induction 1 as [|y ys [-> | ->] _ IH]; simpl; [reflexivity|exact IH..].
Qed.

Lemma foldl_Qmax_zero (vs : list Q) :
  Forall (fun v => v = 0%Q ∨ v = 1%Q) vs →
  (In 1%Q vs → foldl Qmax 0%Q vs = 1%Q) ∧
  (¬ In 1%Q vs → foldl Qmax 0%Q vs = 0%Q).
Proof.
  induction 1 as [|y ys [-> | ->] Hys IH]; simpl.
  - split; [tauto|reflexivity].
  - change (Qmax 0 0) with 0%Q. destruct IH as [IH1 IH0]. split.
    + intros [H|H]; [discriminate H|now apply IH1].
    + intros H. apply IH0. tauto.
  - change (Qmax 0 1) with 1%Q. split.
    + intros _. now apply foldl_Qmax_one.
    + intros H. exfalso. apply H. now left.
Qed.

Lemma foldl_Qmin_zero (vs : list Q) :
  Forall (fun v => v = 0%Q ∨ v = 1%Q) vs → foldl Qmin 0%Q vs = 0%Q.
Proof.
  induction 1 as [|y ys [-> | ->] _ IH]; simpl; [reflexivity|exact IH..].
Qed.

Lemma foldl_Qmin_one (vs : list Q) :
  Forall (fun v => v = 0%Q ∨ v = 1%Q) vs →
  (In 0%Q vs → foldl Qmin 1%Q vs = 0%Q) ∧
  (¬ In 0%Q vs → foldl Qmin 1%Q vs = 1%Q).
Proof.
  induction 1 as [|y ys [-> | ->] Hys IH]; simpl.
  - split; [tauto|reflexivity].
  - change (Qmin 1 0) with 0%Q. split.
    + intros _. now apply foldl_Qmin_zero.
    + intros H. exfalso. apply H. now left.
  - change (Qmin 1 1) with 1%Q. destruct IH as [IH1 IH0]. split.
    + intros [H|H]; [discriminate H|now apply IH1].
    + intros H. apply IH0. tauto.
Qed.

Lemma ndarray_max_binary (g : ndarray) :
  binary g → In 1%Q (data g) → ndarray_max g = Ok 1%Q.
Proof.
  unfold binary, ndarray_max, reduce_all. destruct (data g) as [|v vs].
  - intros _ [].
  - intros Hb Hin. apply Forall_cons in Hb as [[-> | ->] Hvs]; f_equal.
    + apply foldl_Qmax_zero; [exact Hvs|].
      destruct Hin as [H|H]; [discriminate H|exact H].
    + now apply foldl_Qmax_one.
Qed.

Lemma ndarray_min_binary (g : ndarray) :
  binary g → data g ≠ [] →
  (In 0%Q (data g) → ndarray_min g = Ok 0%Q) ∧
  (¬ In 0%Q (data g) → ndarray_min g = Ok 1%Q).
Proof.
  unfold binary, ndarray_min, reduce_all. destruct (data g) as [|v vs].
  - intros _ H. now contradiction H.
  - intros Hb _. apply Forall_cons in Hb as [[-> | ->] Hvs].
    + split.
      * intros _. f_equal. now apply foldl_Qmin_zero.
      * intros H. exfalso. apply H. now left.
    + destruct (foldl_Qmin_one vs Hvs) as [H0 H1]. split.
      * intros [H|H]; [discriminate H|]. f_equal. now apply H0.
      * intros H. f_equal. apply H1. intros H'. apply H. now right.
Qed.

(** X7.  When the notebook runs to the end, [grid.max()] is 1;
    [grid.min()] is 0 as long as some cell is still 0, and 1 only when
    every cell of the array has been stored to. *)
Theorem X7_max_and_min_of_the_grid (atoms : list atom) (g : ndarray) :
  voxelize atoms = Ok (g, None) →
  ndarray_max g = Ok 1%Q ∧
  (In 0%Q (data g) → ndarray_min g = Ok 0%Q) ∧
  (¬ In 0%Q (data g) → ndarray_min g = Ok 1%Q).
Proof.
  intros Hv.
  destruct (bounding_box atoms) as [bb|e] eqn:Hbb.
  2:{ unfold voxelize in Hv. rewrite Hbb in Hv. discriminate Hv. }
  destruct (voxelize_unfold atoms bb _ Hbb Hv) as (g0 & Hz & Hsh & Hr & _).
  pose proof Hz as Hz'. apply np_zeros_Ok in Hz' as (_ & Hwf & Hb).
  pose proof (rasterize_binary bb atoms g0 Hb) as Hbin.
  rewrite Hr in Hbin. cbn [fst] in Hbin.
  assert (In 1%Q (data g)) as Hone.
  { destruct atoms as [|a rest]; [discriminate Hbb|].
    pose proof Hr as Hinv. apply rasterize_None_inv in Hinv as [Hall ->].
    simpl in Hall. apply andb_true_iff in Hall as [Ha _].
    unfold accepted in Ha.
    destruct (target bb (shape g0) a) as [o|e] eqn:Et; [|discriminate].
    apply list_elem_of_In, list_elem_of_lookup. exists o. cbn [data].
    rewrite paint_lookup, decide_True.
    - pose proof (target_lt bb g0 a o Hwf Et) as Hlt.
      apply lookup_lt_is_Some in Hlt as [v ->]. reflexivity.
    - apply list_elem_of_omap. exists a.
      split; [apply list_elem_of_here|]. unfold target_opt. now rewrite Et. }
  split; [now apply ndarray_max_binary|].
  apply ndarray_min_binary; [exact Hbin|].
  intros E. rewrite E in Hone. exact Hone.
Qed.

Lemma X7_witness :
  ndarray_max
    (NDArray (2, 2, 1, 4) [1; 0; 0; 0;  0; 0; 0; 0;  0; 0; 0; 0;  0; 1; 0; 0]%Q)
  = Ok 1%Q.
Proof.
  apply (X7_max_and_min_of_the_grid scenario). vm_compute. reflexivity.
Defined.

(** X8.  [l.index(s)] is the position of the first occurrence of [s] in
    [l].  [symbols] has no repeated entry, so a symbol has index [c] in
    it exactly when it is the entry at position [c]: two different
    symbols never share a channel and every channel belongs to one
    symbol. *)
Theorem X8_index_is_first_occurrence (l : list string) (s : string) (c : Z) :
  (index l s = Ok c ↔
   0 ≤ c ∧ l !! Z.to_nat c = Some s ∧
   ∀ j, (j < Z.to_nat c)%nat → l !! j ≠ Some s) ∧
  (index symbols s = Ok c ↔ 0 ≤ c ∧ symbols !! Z.to_nat c = Some s) ∧
  (∀ s', index l s = Ok c → index l s' = Ok c → s = s').
Proof.
  assert (∀ l' s' c', index l' s' = Ok c' ↔
            0 ≤ c' ∧ l' !! Z.to_nat c' = Some s' ∧
            ∀ j, (j < Z.to_nat c')%nat → l' !! j ≠ Some s') as Hfirst.
  { intros l' s' c'. unfold index. rewrite index_from_first.
    now replace (c' - 0) with c' by lia. }
  split; [apply Hfirst|]. split.
  - rewrite Hfirst. split; [tauto|]. intros [Hc Hl].
    split; [exact Hc|]. split; [exact Hl|].
    intros j Hj Hj'.
    assert (NoDup symbols) as Hnd.
    { unfold symbols. repeat constructor; rewrite ?elem_of_cons, ?elem_of_nil;
        intros H; repeat destruct H as [H|H]; congruence. }
    pose proof (NoDup_lookup _ _ _ _ Hnd Hj' Hl). lia.
  - intros s' H1 H2. apply Hfirst in H1 as (_ & E1 & _).
    apply Hfirst in H2 as (_ & E2 & _). congruence.
Qed.

End ReduceAndIndex.

(** ** Moving the molecule by whole Angstroms *)

Section Translation.

Lemma Qfloor_plus_Z (q : Q) (t : Z) : Qfloor (q + inject_Z t) = Qfloor q + t.
Proof.
  destruct q as [n d]. unfold Qplus, inject_Z, Qfloor. simpl.
  rewrite Z.mul_1_r, Pos.mul_1_r.
  rewrite Z.div_add by lia. reflexivity.
Qed.

Lemma Qceiling_plus_Z (q : Q) (t : Z) : Qceiling (q + inject_Z t) = Qceiling q + t.
Proof.
  unfold Qceiling.
  assert (- (q + inject_Z t) == - q + inject_Z (- t))%Q as E.
  { rewrite inject_Z_opp. ring. }
  rewrite (Qfloor_comp _ _ E), Qfloor_plus_Z. lia.
Qed.

Lemma column_translate (t : vec3 Z) (ax : axis) (atoms : list atom) :
  column ax (map (translate t) atoms)
  = map (fun q => (q + inject_Z (component ax t))%Q) (column ax atoms).
Proof.
  unfold column, pos. rewrite !map_map. apply map_ext. intros a.
  unfold translate. cbn [coords].
  rewrite component_zip3, component_map3. reflexivity.
Qed.

Lemma is_min_shift (m m' : Q) (t : Z) (xs : list Q) :
  is_min m xs → is_min m' (map (fun q => (q + inject_Z t)%Q) xs) →
  (m' == m + inject_Z t)%Q.
Proof.
  intros [Hin Hall] [Hin' Hall']. rewrite Forall_forall in Hall, Hall'.
  apply Qle_antisym.
  - apply Hall'. apply list_elem_of_In.
    apply (in_map (fun q => (q + inject_Z t)%Q)), Hin.
  - apply in_map_iff in Hin' as (y & <- & Hy).
    apply Qplus_le_compat; [|apply Qle_refl].
    apply Hall. now apply list_elem_of_In.
Qed.

Lemma is_max_shift (m m' : Q) (t : Z) (xs : list Q) :
  is_max m xs → is_max m' (map (fun q => (q + inject_Z t)%Q) xs) →
  (m' == m + inject_Z t)%Q.
Proof.
  intros [Hin Hall] [Hin' Hall']. rewrite Forall_forall in Hall, Hall'.
  apply Qle_antisym.
  - apply in_map_iff in Hin' as (y & <- & Hy).
    apply Qplus_le_compat; [|apply Qle_refl].
    apply Hall. now apply list_elem_of_In.
  - apply Hall'. apply list_elem_of_In.
    apply (in_map (fun q => (q + inject_Z t)%Q)), Hin.
Qed.

(** The box of the moved atoms is the moved box. *)
Lemma bounding_box_translate (t : vec3 Z) (atoms : list atom) (bb bb' : bbox) (ax : axis) :
  bounding_box atoms = Ok bb →
  bounding_box (map (translate t) atoms) = Ok bb' →
  component ax (fst bb')
  = inject_Z (Qfloor (component ax (fst bb)) + component ax t) ∧
  component ax (snd bb')
  = inject_Z (Qceiling (component ax (snd bb)) + component ax t).
Proof.
  intros H H'.
  apply bounding_box_inv in H as (lo & hi & Hlo & Hhi & ->).
  apply bounding_box_inv in H' as (lo' & hi' & Hlo' & Hhi' & ->).
  cbn [fst snd]. rewrite !component_map3. unfold np_floor, np_ceil.
  rewrite Qfloor_Z, Qceiling_Z.
  pose proof (reduce_axis0_min _ _ ax Hlo) as Hm.
  pose proof (reduce_axis0_min _ _ ax Hlo') as Hm'.
  pose proof (reduce_axis0_max _ _ ax Hhi) as HM.
  pose proof (reduce_axis0_max _ _ ax Hhi') as HM'.
  rewrite column_translate in Hm', HM'.
  split; f_equal.
  - rewrite (Qfloor_comp _ _ (is_min_shift _ _ _ _ Hm Hm')).
    apply Qfloor_plus_Z.
  - rewrite (Qceiling_comp _ _ (is_max_shift _ _ _ _ HM HM')).
    apply Qceiling_plus_Z.
Qed.

Lemma bounding_box_corners_integral (atoms : list atom) (bb : bbox) (ax : axis) :
  bounding_box atoms = Ok bb →
  component ax (fst bb) = inject_Z (Qfloor (component ax (fst bb))) ∧
  component ax (snd bb) = inject_Z (Qceiling (component ax (snd bb))).
Proof.
  intros H. apply bounding_box_inv in H as (lo & hi & _ & _ & ->).
  cbn [fst snd]. rewrite !component_map3. unfold np_floor, np_ceil.
  now rewrite Qfloor_Z, Qceiling_Z.
Qed.

Lemma box_size_translate (t : vec3 Z) (atoms : list atom) (bb bb' : bbox) :
  bounding_box atoms = Ok bb →
  bounding_box (map (translate t) atoms) = Ok bb' →
  box_size bb' = box_size bb.
Proof.
  intros H H'. apply vec3_eq. intros ax.
  unfold box_size. rewrite !component_map3, !component_zip3.
  destruct (bounding_box_translate t atoms bb bb' ax H H') as [-> ->].
  destruct (bounding_box_corners_integral atoms bb ax H) as [E1 E2].
  rewrite E1, E2. rewrite !Qfloor_Z, !Qceiling_Z, !astype_int_minus_Z.
  f_equal. lia.
Qed.

Lemma voxel_index_translate (t : vec3 Z) (atoms : list atom) (bb bb' : bbox) (a : atom) :
  bounding_box atoms = Ok bb →
  bounding_box (map (translate t) atoms) = Ok bb' →
  voxel_index bb' (translate t a) = voxel_index bb a.
Proof.
  intros H H'. apply vec3_eq. intros ax.
  rewrite !voxel_index_component.
  destruct (bounding_box_translate t atoms bb bb' ax H H') as [-> _].
  destruct (bounding_box_corners_integral atoms bb ax H) as [E1 _].
  rewrite E1. rewrite Qfloor_Z, !Qfloor_minus_Z.
  unfold translate. cbn [coords].
  rewrite component_zip3, component_map3, Qfloor_plus_Z. f_equal. lia.
Qed.

Lemma rasterize_translate (t : vec3 Z) (atoms : list atom) (bb bb' : bbox)
    (l : list atom) (g : ndarray) :
  bounding_box atoms = Ok bb →
  bounding_box (map (translate t) atoms) = Ok bb' →
  rasterize bb' g (map (translate t) l) = rasterize bb g l.
Proof.
  intros H H'. revert g. induction l as [|a l IH]; intros g; [reflexivity|].
  simpl. unfold rasterize_atom.
  rewrite (voxel_index_translate t atoms bb bb' a H H').
  cbn [translate symbol].
  destruct (index symbols (symbol a) ≫= _) as [g'|e]; [apply IH|reflexivity].
Qed.

(** X9.  Moving every atom by the same whole number of Angstroms along
    each axis changes nothing in the outcome of the notebook: the same
    array, and the same exception if one is raised. *)
Theorem X9_integer_translation_invariant (t : vec3 Z) (atoms : list atom) :
  voxelize (map (translate t) atoms) = voxelize atoms.
Proof.
  destruct atoms as [|a0 rest]; [reflexivity|].
  destruct (bounding_box_nonempty (a0 :: rest)) as [bb Hbb]; [discriminate|].
  destruct (bounding_box_nonempty (map (translate t) (a0 :: rest)))
    as [bb' Hbb']; [discriminate|].
  unfold voxelize. rewrite Hbb, Hbb'. cbn -[grid box_size rasterize map].
  rewrite (box_size_translate t _ bb bb' Hbb Hbb').
  destruct (grid (box_size bb)) as [g|e]; [|reflexivity].
  cbn -[rasterize map]. f_equal.
  apply (rasterize_translate t _ bb bb' _ g Hbb Hbb').
Qed.

End Translation.

(** ** Views of the array: the plotted channels and the crop *)

Section Views.

(** The axis number only shows in the exception. *)
Lemma check_index_axis (ax ax' : nat) (i n j : Z) :
  check_index ax i n = Ok j → check_index ax' i n = Ok j.
Proof.
  unfold check_index.
  destruct ((0 <=? i) && (i <? n)); [auto|].
  destruct ((- n <=? i) && (i <? 0)); [auto|discriminate].
Qed.

Lemma check_index_axis_Raise (ax ax' : nat) (i n : Z) (e : exn) :
  check_index ax i n = Raise e → check_index ax' i n = Raise (IndexError ax' i n).
Proof.
  unfold check_index.
  destruct ((0 <=? i) && (i <? n)); [discriminate|].
  destruct ((- n <=? i) && (i <? 0)); [discriminate|reflexivity].
Qed.

Lemma check_index_Ok_iff (ax : nat) (i n : Z) :
  (∃ j, check_index ax i n = Ok j) ↔ - n ≤ i < n.
Proof.
  unfold check_index.
  destruct ((0 <=? i) && (i <? n)) eqn:E1.
  - apply andb_true_iff in E1. split; [lia|eauto].
  - destruct ((- n <=? i) && (i <? 0)) eqn:E2.
    + apply andb_true_iff in E2. split; [lia|eauto].
    + apply andb_false_iff in E1, E2. split.
      * intros [j H]. discriminate H.
      * intros H. exfalso. lia.
Qed.

(** Reading through a view of the whole array is reading the array. *)
Lemma locate_as_view (n0 n1 n2 n3 i j k c off : Z) :
  locate (row_major [n0; n1; n2; n3]) [i; j; k; c] off
  = match normalize (n0, n1, n2, n3) (i, j, k, c) with
    | Ok (a, b, d, e) => Some (off + (((a * n1 + b) * n2 + d) * n3 + e))
    | Raise _ => None
    end.
Proof.
  unfold normalize. cbn [row_major locate np_prod foldr].
  destruct (check_index 0 i n0) as [a|e0] eqn:E0; cbn -[check_index Z.mul Z.add];
    [|reflexivity].
  destruct (check_index 0 j n1) as [b|e1] eqn:E1.
  2:{ now rewrite (check_index_axis_Raise 0 1 _ _ _ E1). }
  rewrite (check_index_axis 0 1 _ _ _ E1). cbn -[check_index Z.mul Z.add].
  destruct (check_index 0 k n2) as [d|e2] eqn:E2.
  2:{ now rewrite (check_index_axis_Raise 0 2 _ _ _ E2). }
  rewrite (check_index_axis 0 2 _ _ _ E2). cbn -[check_index Z.mul Z.add].
  destruct (check_index 0 c n3) as [e|e3] eqn:E3.
  2:{ now rewrite (check_index_axis_Raise 0 3 _ _ _ E3). }
  rewrite (check_index_axis 0 3 _ _ _ E3). cbn -[check_index Z.mul Z.add].
  f_equal. ring.
Qed.

Lemma view_getitem_as_view (g : ndarray) (i j k c : Z) :
  view_getitem (as_view g) [i; j; k; c] = getitem g (i, j, k, c).
Proof.
  unfold view_getitem, as_view, getitem.
  destruct (shape g) as [[[n0 n1] n2] n3]. cbn [dims offset storage].
  rewrite locate_as_view.
  destruct (normalize (n0, n1, n2, n3) (i, j, k, c)) as [[[[a b] d] e]|];
    [|reflexivity].
  cbn [mbind option_bind ravel]. reflexivity.
Qed.

Lemma channel_Ok_iff (g : ndarray) (n0 n1 n2 n3 c : Z) :
  shape g = (n0, n1, n2, n3) →
  (∃ v, channel g c = Ok v) ↔ - n3 ≤ c < n3.
Proof.
  intros Hsh. unfold channel. rewrite Hsh.
  rewrite <- (check_index_Ok_iff 3 c n3).
  destruct (check_index 3 c n3) as [jc|e]; cbn -[Z.mul Z.add as_view]; split.
  - eauto.
  - eauto.
  - intros [v H]. discriminate H.
  - intros [j H]. discriminate H.
Qed.

Lemma channel_inv (g : ndarray) (n0 n1 n2 n3 c : Z) (v : view) :
  shape g = (n0, n1, n2, n3) → channel g c = Ok v →
  ∃ jc, check_index 3 c n3 = Ok jc ∧
        v = View (data g) (0 + jc * 1)
              [(n0, n1 * (n2 * (n3 * 1))); (n1, n2 * (n3 * 1)); (n2, n3 * 1)].
Proof.
  intros Hsh. unfold channel, as_view. rewrite Hsh.
  cbn [storage offset dims row_major np_prod foldr take].
  destruct (check_index 3 c n3) as [jc|e] eqn:Ec; cbn -[Z.mul Z.add];
    [|discriminate].
  intros [= <-]. eauto.
Qed.

Lemma channel_read (g : ndarray) (n0 n1 n2 n3 c jc i j k : Z) :
  shape g = (n0, n1, n2, n3) → check_index 3 c n3 = Ok jc →
  view_getitem
    (View (data g) (0 + jc * 1)
       [(n0, n1 * (n2 * (n3 * 1))); (n1, n2 * (n3 * 1)); (n2, n3 * 1)])
    [i; j; k]
  = getitem g (i, j, k, c).
Proof.
  intros Hsh Ec. unfold view_getitem, getitem. rewrite Hsh.
  cbn [dims offset storage locate]. unfold normalize.
  destruct (check_index 0 i n0) as [a|e0] eqn:E0; cbn -[check_index Z.mul Z.add];
    [|reflexivity].
  destruct (check_index 0 j n1) as [b|e1] eqn:E1.
  2:{ now rewrite (check_index_axis_Raise 0 1 _ _ _ E1). }
  rewrite (check_index_axis 0 1 _ _ _ E1). cbn -[check_index Z.mul Z.add].
  destruct (check_index 0 k n2) as [d|e2] eqn:E2.
  2:{ now rewrite (check_index_axis_Raise 0 2 _ _ _ E2). }
  rewrite (check_index_axis 0 2 _ _ _ E2), Ec. cbn -[Z.mul Z.add].
  f_equal. f_equal. ring.
Qed.

(** X10.  [grid[:, :, :, c]] raises exactly when [c] is outside
    [-n3, n3), so never for the channels 0 to 3 of the notebook's array;
    otherwise it is a view of shape (n0, n1, n2) on the buffer of the
    array, and reading it at [i, j, k] is reading the array at
    [i, j, k, c]. *)
Theorem X10_channel_slice (g : ndarray) (n0 n1 n2 n3 c : Z) :
  shape g = (n0, n1, n2, n3) →
  ((∃ v, channel g c = Ok v) ↔ - n3 ≤ c < n3) ∧
  (∀ v, channel g c = Ok v →
        view_shape v = [n0; n1; n2] ∧
        storage v = data g ∧
        ∀ i j k, view_getitem v [i; j; k] = getitem g (i, j, k, c)).
Proof.
  intros Hsh. split; [now apply (channel_Ok_iff g n0 n1 n2 n3)|].
  intros v Hv.
  destruct (channel_inv g n0 n1 n2 n3 c v Hsh Hv) as (jc & Ec & ->).
  split; [reflexivity|]. split; [reflexivity|].
  intros i j k. now apply (channel_read g n0 n1 n2 n3 c jc).
Qed.

Lemma X10_witness :
  ∃ v, channel zeros_2214 1 = Ok v ∧ view_shape v = [2; 2; 1] ∧
       view_getitem v [1; 1; 0] = getitem zeros_2214 (1, 1, 0, 1).
Proof.
  destruct (X10_channel_slice zeros_2214 2 2 1 4 1 eq_refl) as [Hex Hv].
  destruct (proj2 Hex) as [v Ev]; [lia|].
  exists v. split; [exact Ev|].
  destruct (Hv v Ev) as (Hs & _ & Hget). split; [exact Hs|apply Hget].
Defined.

(** X11.  [grid[:16, :16, :16, :]] never raises: it is a view of shape
    (min(16,n0), min(16,n1), min(16,n2), n3) on the same buffer, reading
    it inside that shape is reading the array at the same subscript, and
    it has nothing at index 16 and beyond. *)
Theorem X11_crop_to_16 (g : ndarray) (n0 n1 n2 n3 : Z) :
  shape g = (n0, n1, n2, n3) →
  view_shape (crop g) = [Z.min 16 n0; Z.min 16 n1; Z.min 16 n2; n3] ∧
  storage (crop g) = data g ∧
  (∀ i j k c,
     0 ≤ i < Z.min 16 n0 → 0 ≤ j < Z.min 16 n1 → 0 ≤ k < Z.min 16 n2 →
     0 ≤ c < n3 →
     view_getitem (crop g) [i; j; k; c] = getitem g (i, j, k, c)) ∧
  (∀ i j k c,
     16 ≤ i ∨ 16 ≤ j ∨ 16 ≤ k → view_getitem (crop g) [i; j; k; c] = None).
Proof.
  intros Hsh. unfold crop, slice_axis, as_view. rewrite Hsh.
  cbn [storage offset dims row_major np_prod foldr alter list_alter fst snd
       view_shape fmap list_fmap].
  change (slice_stop 16 n0) with (Z.min 16 n0).
  change (slice_stop 16 n1) with (Z.min 16 n1).
  change (slice_stop 16 n2) with (Z.min 16 n2).
  split; [reflexivity|]. split; [reflexivity|]. split.
  - intros i j k c Hi Hj Hk Hc. unfold view_getitem, getitem. rewrite Hsh.
    cbn [dims offset storage locate].
    rewrite !check_index_in_range by assumption.
    rewrite normalize_in_range by (repeat split; lia).
    cbn [mbind option_bind ravel]. f_equal. f_equal. ring.
  - intros i j k c H. unfold view_getitem. cbn [dims offset storage locate].
    destruct (check_index 0 i (Z.min 16 n0)) as [a|] eqn:E0; [|reflexivity].
    destruct (check_index 0 j (Z.min 16 n1)) as [b|] eqn:E1; [|reflexivity].
    destruct (check_index 0 k (Z.min 16 n2)) as [d|] eqn:E2; [|reflexivity].
    exfalso.
    assert (∀ m y z, 16 ≤ y → check_index 0 y (Z.min 16 m) = Ok z → False) as Hno.
    { intros m y z Hy Hz.
      assert (∃ z', check_index 0 y (Z.min 16 m) = Ok z') as Hz' by eauto.
      apply check_index_Ok_iff in Hz'. lia. }
    destruct H as [H|[H|H]]; eauto.
Qed.

Lemma X11_witness :
  view_shape (crop zeros_2214) = [Z.min 16 2; Z.min 16 2; Z.min 16 1; 4].
Proof.
  apply (X11_crop_to_16 zeros_2214 2 2 1 4). reflexivity.
Defined.

End Views.

(** ** The tensor handed to the network *)

Section Tensor.

Lemma flat_map_length_uniform {A B : Type} (f : A → list B) (L : nat) (l : list A) :
  (∀ a, length (f a) = L) → length (flat_map f l) = (length l * L)%nat.
Proof.
  intros H. induction l as [|a l IH]; simpl; [reflexivity|].
  rewrite length_app, H, IH. reflexivity.
Qed.

Lemma flat_map_lookup_uniform {A B : Type} (f : A → list B) (L : nat)
    (l : list A) (j r : nat) :
  (∀ a, length (f a) = L) → (r < L)%nat →
  flat_map f l !! (j * L + r)%nat = l !! j ≫= (fun a => f a !! r).
Proof.
  intros H Hr. revert j. induction l as [|a l IH]; intros j; simpl.
  - reflexivity.
  - destruct j as [|j]; simpl.
    + apply lookup_app_l. now rewrite H.
    + rewrite lookup_app_r by (rewrite H; lia).
      rewrite H, <- IH. f_equal. lia.
Qed.

Lemma np_prod_nonneg (sh : list Z) :
  Forall (fun n => 0 ≤ n) sh → 0 ≤ np_prod sh.
Proof.
  induction 1 as [|n sh Hn _ IH]; simpl; [lia|]. now apply Z.mul_nonneg_nonneg.
Qed.

Lemma view_elements_length (b : list Q) (ds : list (Z * Z)) (off : Z) :
  Forall (fun n => 0 ≤ n) (fst <$> ds) →
  length (view_elements b ds off) = Z.to_nat (np_prod (fst <$> ds)).
Proof.
  revert off. induction ds as [|[n s] ds IH]; intros off Hnn; [reflexivity|].
  apply Forall_cons in Hnn as [Hn Hnn]. cbn [fst] in Hn.
  cbn [view_elements fmap list_fmap fst np_prod foldr].
  rewrite (flat_map_length_uniform _ (Z.to_nat (np_prod (fst <$> ds)))).
  - rewrite length_seq.
    pose proof (np_prod_nonneg _ Hnn) as Hp.
    change (foldr Z.mul 1 (fst <$> ds)) with (np_prod (fst <$> ds)).
    rewrite Z2Nat.inj_mul by assumption. reflexivity.
  - intros i. now apply IH.
Qed.

Lemma locate_shift (ds : list (Z * Z)) (ix : list Z) (a b : Z) :
  locate ds ix (a + b) = (fun p => a + p) <$> locate ds ix b.
Proof.
  revert ix b. induction ds as [|[n s] ds IH]; intros [|i ix] b; simpl;
    try reflexivity.
  destruct (check_index 0 i n) as [j|]; [|reflexivity].
  rewrite <- IH. f_equal. lia.
Qed.

Lemma locate_from_zero (ds : list (Z * Z)) (ix : list Z) (off : Z) :
  locate ds ix off = (fun p => off + p) <$> locate ds ix 0.
Proof. rewrite <- locate_shift. f_equal. lia. Qed.

Lemma locate_row_major_bound (sh : list Z) (ix : list Z) (p : Z) :
  Forall (fun n => 0 ≤ n) sh →
  locate (row_major sh) ix 0 = Some p → 0 ≤ p < np_prod sh.
Proof.
  intros Hnn. revert ix p.
  induction Hnn as [|n sh Hn Hnn IH]; intros [|i ix] p; simpl; try discriminate.
  - intros [= <-]. lia.
  - destruct (check_index 0 i n) as [j|] eqn:Ej; [|discriminate].
    apply check_index_Ok in Ej.
    rewrite locate_from_zero.
    destruct (locate (row_major sh) ix 0) as [p'|] eqn:Ep;
      cbn [fmap option_fmap option_map]; [|discriminate].
    intros [= <-]. apply IH in Ep.
    change (foldr Z.mul 1 sh) with (np_prod sh). nia.
Qed.

(** The element a copy holds at the row-major place of a subscript is the
    element the view shows at that subscript. *)
Lemma view_elements_lookup (b : list Q) (ds : list (Z * Z)) :
  ∀ off ix p q,
    Forall (fun n => 0 ≤ n) (fst <$> ds) →
    locate (row_major (fst <$> ds)) ix 0 = Some p →
    locate ds ix off = Some q →
    view_elements b ds off !! Z.to_nat p
    = Some (default 0%Q (b !! Z.to_nat q)).
Proof.
  induction ds as [|[n s] ds IH]; intros off [|i ix] p q Hnn; simpl;
    try discriminate.
  - intros [= <-] [= <-]. reflexivity.
  - apply Forall_cons in Hnn as [Hn Hnn].
    destruct (check_index 0 i n) as [j|] eqn:Ej; [|discriminate].
    apply check_index_Ok in Ej.
    change (list_fmap (Z * Z)%type Z fst ds) with (fst <$> ds).
    change (foldr Z.mul 1 (fst <$> ds)) with (np_prod (fst <$> ds)).
    rewrite (locate_from_zero (row_major (fst <$> ds))).
    destruct (locate (row_major (fst <$> ds)) ix 0) as [p'|] eqn:Ep;
      cbn [fmap option_fmap option_map]; [|discriminate].
    intros [= <-] Hq.
    assert (0 ≤ p' < np_prod (fst <$> ds)) as Hp'
      by (eapply locate_row_major_bound; [exact Hnn|exact Ep]).
    assert (0 ≤ np_prod (fst <$> ds)) as HP
      by (apply np_prod_nonneg; exact Hnn).
    assert (0 ≤ j * np_prod (fst <$> ds)) as HjP
      by (apply Z.mul_nonneg_nonneg; lia).
    replace (Z.to_nat (0 + j * np_prod (fst <$> ds) + p'))
      with (Z.to_nat j * Z.to_nat (np_prod (fst <$> ds)) + Z.to_nat p')%nat
      by (rewrite Z.add_0_l, Z2Nat.inj_add, Z2Nat.inj_mul by lia; reflexivity).
    rewrite flat_map_lookup_uniform.
    + rewrite lookup_seq_lt by lia. cbn [mbind option_bind Nat.add].
      rewrite Z2Nat.id by lia. now apply (IH _ ix).
    + intros a. now apply view_elements_length.
    + lia.
Qed.

Lemma x_unfold (g : ndarray) (n0 n1 n2 n3 : Z) :
  shape g = (n0, n1, n2, n3) →
  x g = TOk
    (View
       (view_elements (data g)
          [(Z.min 16 n0, n1 * (n2 * (n3 * 1))); (Z.min 16 n1, n2 * (n3 * 1));
           (Z.min 16 n2, n3 * 1); (n3, 1)] 0)
       0
       [(1, Z.min 16 n0 * (Z.min 16 n1 * (Z.min 16 n2 * (n3 * 1))));
        (n3, 1);
        (Z.min 16 n0, Z.min 16 n1 * (Z.min 16 n2 * (n3 * 1)));
        (Z.min 16 n1, Z.min 16 n2 * (n3 * 1));
        (Z.min 16 n2, n3 * 1)]).
Proof.
  intros Hsh. unfold x, FloatTensor, crop, slice_axis, as_view. rewrite Hsh.
  cbn [storage offset dims row_major np_prod foldr alter list_alter fst snd
       view_shape fmap list_fmap].
  change (slice_stop 16 n0) with (Z.min 16 n0).
  change (slice_stop 16 n1) with (Z.min 16 n1).
  change (slice_stop 16 n2) with (Z.min 16 n2).
  reflexivity.
Qed.

(** X12.  For an array of zeros and ones, [x] never raises.  Its shape is
    (1, n3, min(16,n0), min(16,n1), min(16,n2)): a batch of one with the
    channel axis moved in front of the three spatial axes, and reading
    [x] at [0, c, i, j, k] gives the cell [i, j, k, c] of the array. *)
Theorem X12_x_is_the_crop_channels_first (g : ndarray) (n0 n1 n2 n3 : Z) :
  wf g → binary g → shape g = (n0, n1, n2, n3) →
  ∃ t, x g = TOk t ∧
       view_shape t = [1; n3; Z.min 16 n0; Z.min 16 n1; Z.min 16 n2] ∧
       ∀ i j k c,
         0 ≤ i < Z.min 16 n0 → 0 ≤ j < Z.min 16 n1 → 0 ≤ k < Z.min 16 n2 →
         0 ≤ c < n3 →
         view_getitem t [0; c; i; j; k] = getitem g (i, j, k, c).
Proof.
  intros Hwf _ Hsh. eexists. split; [apply (x_unfold g n0 n1 n2 n3 Hsh)|].
  split; [reflexivity|].
  intros i j k c Hi Hj Hk Hc.
  unfold view_getitem. cbn [dims offset storage locate].
  rewrite !check_index_in_range by (assumption || lia).
  cbn [mbind option_bind].
  set (ds := [(Z.min 16 n0, n1 * (n2 * (n3 * 1))); (Z.min 16 n1, n2 * (n3 * 1));
              (Z.min 16 n2, n3 * 1); (n3, 1)]).
  assert (in_range (shape g) (i, j, k, c)) as Hr by (rewrite Hsh; repeat split; lia).
  assert (getitem g (i, j, k, c) = data g !! ravel (shape g) (i, j, k, c)) as Eg.
  { unfold getitem. now rewrite normalize_in_range. }
  assert (is_Some (data g !! ravel (shape g) (i, j, k, c))) as [v Ev].
  { apply lookup_lt_is_Some. rewrite (wf_length g Hwf). now apply ravel_lt. }
  rewrite Eg, Ev. rewrite Hsh in Ev. cbn [ravel] in Ev.
  assert (Forall (fun n => 0 ≤ n) (fst <$> ds)) as Hnn.
  { subst ds. cbn [fmap list_fmap fst]. repeat constructor; lia. }
  assert (locate (row_major (fst <$> ds)) [i; j; k; c] 0
          = Some (i * (Z.min 16 n1 * (Z.min 16 n2 * (n3 * 1)))
                  + j * (Z.min 16 n2 * (n3 * 1)) + k * (n3 * 1) + c)) as Hp.
  { subst ds. cbn [fmap list_fmap fst row_major np_prod foldr locate].
    rewrite !check_index_in_range by (assumption || lia).
    f_equal. ring. }
  assert (locate ds [i; j; k; c] 0
          = Some (((i * n1 + j) * n2 + k) * n3 + c)) as Hq.
  { subst ds. cbn [locate].
    rewrite !check_index_in_range by (assumption || lia).
    f_equal. ring. }
  pose proof (view_elements_lookup (data g) ds 0 [i; j; k; c] _ _ Hnn Hp Hq)
    as Hl.
  rewrite Ev in Hl. change (default 0%Q (Some v)) with v in Hl.
  rewrite <- Hl. f_equal. f_equal. ring.
Qed.

Lemma X12_witness :
  wf zeros_2214 ∧ binary zeros_2214 ∧
  ∃ t, x zeros_2214 = TOk t ∧
       view_shape t = [1; 4; Z.min 16 2; Z.min 16 2; Z.min 16 1] ∧
       view_getitem t [0; 1; 1; 1; 0] = getitem zeros_2214 (1, 1, 0, 1).
Proof.
  assert (wf zeros_2214) as Hwf.
  { unfold wf, zeros_2214. simpl. repeat split; lia. }
  assert (binary zeros_2214) as Hb.
  { unfold binary, zeros_2214. simpl. repeat constructor; now left. }
  split; [exact Hwf|]. split; [exact Hb|].
  destruct (X12_x_is_the_crop_channels_first zeros_2214 2 2 1 4 Hwf Hb eq_refl)
    as (t & Ht & Hs & Hget).
  exists t. split; [exact Ht|]. split; [exact Hs|].
  apply Hget; lia.
Defined.

End Tensor.

(** ** The shapes the network computes *)

Section Network.

Lemma x_shape (g : ndarray) (n0 n1 n2 n3 : Z) :
  shape g = (n0, n1, n2, n3) →
  model_x_shape g
  = sequential_shape model [1; n3; Z.min 16 n0; Z.min 16 n1; Z.min 16 n2].
Proof.
  intros Hsh. unfold model_x_shape. rewrite (x_unfold g n0 n1 n2 n3 Hsh).
  reflexivity.
Qed.

(** Every crop of at most 16 cells per axis, tried. *)
Lemma model_table :
  forallb (fun a => forallb (fun b => forallb (fun c =>
    match sequential_shape model [1; 4; Z.of_nat a; Z.of_nat b; Z.of_nat c] with
    | TOk sh =>
        (a =? 16)%nat && (b =? 16)%nat && (c =? 16)%nat
        && bool_decide (sh = [1; 1])
    | TRaise _ => negb ((a =? 16)%nat && (b =? 16)%nat && (c =? 16)%nat)
    end) (seq 0 17)) (seq 0 17)) (seq 0 17) = true.
Proof. vm_compute. reflexivity. Qed.

Lemma model_on_crop (m0 m1 m2 : Z) :
  0 ≤ m0 ≤ 16 → 0 ≤ m1 ≤ 16 → 0 ≤ m2 ≤ 16 →
  match sequential_shape model [1; 4; m0; m1; m2] with
  | TOk sh => m0 = 16 ∧ m1 = 16 ∧ m2 = 16 ∧ sh = [1; 1]
  | TRaise _ => ¬ (m0 = 16 ∧ m1 = 16 ∧ m2 = 16)
  end.
Proof.
  intros H0 H1 H2. pose proof model_table as T.
  rewrite forallb_forall in T.
  specialize (T (Z.to_nat m0)). rewrite in_seq in T.
  specialize (T ltac:(lia)). rewrite forallb_forall in T.
  specialize (T (Z.to_nat m1)). rewrite in_seq in T.
  specialize (T ltac:(lia)). rewrite forallb_forall in T.
  specialize (T (Z.to_nat m2)). rewrite in_seq in T.
  specialize (T ltac:(lia)).
  rewrite !Z2Nat.id in T by lia.
  destruct (sequential_shape model [1; 4; m0; m1; m2]) as [sh|e].
  - rewrite !andb_true_iff, !Nat.eqb_eq, bool_decide_eq_true in T.
    destruct T as [[[T0 T1] T2] Tsh]. repeat split; (lia || exact Tsh).
  - rewrite negb_true_iff, !andb_false_iff, !Nat.eqb_neq in T.
    intros (E0 & E1 & E2). subst. destruct T as [[T|T]|T]; apply T; reflexivity.
Qed.

Lemma conv_out_small (k p n : Z) :
  n + 2 * p < k → conv_out k p n = TRaise RuntimeError_kernel_greater_than_input.
Proof.
  intros H. unfold conv_out.
  destruct (n + 2 * p <? k) eqn:E; [reflexivity|].
  apply Z.ltb_ge in E. lia.
Qed.

Lemma conv_out_cases (k p n : Z) :
  conv_out k p n = TRaise RuntimeError_kernel_greater_than_input
  ∨ conv_out k p n = TOk (n + 2 * p - k + 1).
Proof. unfold conv_out. destruct (n + 2 * p <? k); auto. Qed.

Lemma first_conv_rejects (m0 m1 m2 : Z) :
  m0 < 4 ∨ m1 < 4 ∨ m2 < 4 →
  sequential_shape model [1; 4; m0; m1; m2]
  = TRaise RuntimeError_kernel_greater_than_input.
Proof.
  intros H.
  assert (spatial (conv_out 8 2) [m0; m1; m2]
          = TRaise RuntimeError_kernel_greater_than_input) as E.
  { unfold spatial. cbn [mapM].
    destruct (conv_out_cases 8 2 m0) as [-> | E0]; [reflexivity|].
    destruct (conv_out_cases 8 2 m1) as [E1 | E1];
      [rewrite E0, E1; reflexivity|].
    destruct (conv_out_cases 8 2 m2) as [E2 | E2];
      [rewrite E0, E1, E2; reflexivity|].
    exfalso.
    destruct H as [H|[H|H]];
      [rewrite conv_out_small in E0 by lia
      |rewrite conv_out_small in E1 by lia
      |rewrite conv_out_small in E2 by lia]; discriminate. }
  unfold model. cbn [sequential_shape forward_shape]. rewrite Z.eqb_refl, E.
  reflexivity.
Qed.

Lemma wrong_channels_rejected (n3 m0 m1 m2 : Z) :
  n3 ≠ 4 →
  sequential_shape model [1; n3; m0; m1; m2]
  = TRaise (RuntimeError_expected_channels 4 n3).
Proof.
  intros H. unfold model. cbn [sequential_shape forward_shape].
  apply Z.eqb_neq in H. rewrite H. reflexivity.
Qed.

Lemma wf_nonneg (g : ndarray) (n0 n1 n2 n3 : Z) :
  wf g → shape g = (n0, n1, n2, n3) → 0 ≤ n0 ∧ 0 ≤ n1 ∧ 0 ≤ n2 ∧ 0 ≤ n3.
Proof. unfold wf. intros H E. rewrite E in H. tauto. Qed.

Lemma model_accepts_iff (g : ndarray) (n0 n1 n2 n3 : Z) :
  wf g → shape g = (n0, n1, n2, n3) →
  (model_x_shape g = TOk [1; 1] ↔ n3 = 4 ∧ 16 ≤ n0 ∧ 16 ≤ n1 ∧ 16 ≤ n2) ∧
  (∀ sh, model_x_shape g = TOk sh → sh = [1; 1]).
Proof.
  intros Hwf Hsh. rewrite (x_shape g n0 n1 n2 n3 Hsh).
  destruct (wf_nonneg g n0 n1 n2 n3 Hwf Hsh) as (N0 & N1 & N2 & N3).
  destruct (Z.eq_dec n3 4) as [->|Hn3].
  2:{ rewrite wrong_channels_rejected by exact Hn3.
      split; [split; [discriminate|intros [? _]; contradiction]|discriminate]. }
  pose proof (model_on_crop (Z.min 16 n0) (Z.min 16 n1) (Z.min 16 n2)
                ltac:(lia) ltac:(lia) ltac:(lia)) as T.
  destruct (sequential_shape model [1; 4; Z.min 16 n0; Z.min 16 n1; Z.min 16 n2])
    as [sh|e].
  - destruct T as (T0 & T1 & T2 & ->). split.
    + split; [intros _; repeat split; lia|reflexivity].
    + now intros sh [= <-].
  - split; [split; [discriminate|]|discriminate].
    intros (_ & H0 & H1 & H2). exfalso. apply T. lia.
Qed.

(** X13.  The network accepts [x] exactly when the array has 4 channels
    and at least 16 cells along each spatial axis, and its result then
    has shape (1, 1); no other shape ever comes out.  A non-empty array
    with fewer than 4 cells along some axis is rejected by the first
    convolution, a non-empty array with another number of channels by
    its channel check. *)
Theorem X13_network_accepts_iff_16_cells (g : ndarray) (n0 n1 n2 n3 : Z) :
  wf g → shape g = (n0, n1, n2, n3) →
  (model_x_shape g = TOk [1; 1] ↔ n3 = 4 ∧ 16 ≤ n0 ∧ 16 ≤ n1 ∧ 16 ≤ n2) ∧
  (∀ sh, model_x_shape g = TOk sh → sh = [1; 1]) ∧
  (n3 = 4 → 0 < n0 → 0 < n1 → 0 < n2 → n0 < 4 ∨ n1 < 4 ∨ n2 < 4 →
   model_x_shape g = TRaise RuntimeError_kernel_greater_than_input) ∧
  (n3 ≠ 4 → 0 < n0 → 0 < n1 → 0 < n2 → 0 < n3 →
   model_x_shape g = TRaise (RuntimeError_expected_channels 4 n3)).
Proof.
  intros Hwf Hsh.
  destruct (model_accepts_iff g n0 n1 n2 n3 Hwf Hsh) as [H1 H2].
  split; [exact H1|]. split; [exact H2|].
  rewrite (x_shape g n0 n1 n2 n3 Hsh). split.
  - intros -> _ _ _ H. apply first_conv_rejects. lia.
  - intros H _ _ _ _. now apply wrong_channels_rejected.
Qed.

Lemma X13_witness :
  wf zeros_2214 ∧
  model_x_shape zeros_2214 = TRaise RuntimeError_kernel_greater_than_input.
Proof.
  assert (wf zeros_2214) as Hwf.
  { unfold wf, zeros_2214. simpl. repeat split; lia. }
  split; [exact Hwf|].
  destruct (X13_network_accepts_iff_16_cells zeros_2214 2 2 1 4 Hwf eq_refl)
    as (_ & _ & H & _).
  apply H; [reflexivity|lia..].
Defined.

Lemma voxelize_result_shape (atoms : list atom) (bb : bbox) (g : ndarray) (e : option exn) :
  bounding_box atoms = Ok bb →
  voxelize atoms = Ok (g, e) →
  wf g ∧ shape g = (extent bb ax0, extent bb ax1, extent bb ax2, 4).
Proof.
  intros Hbb Hv.
  destruct (voxelize_unfold atoms bb _ Hbb Hv) as (g0 & Hz & Hsh & Hr & Hnn).
  apply np_zeros_Ok in Hz as (_ & Hwf & _).
  pose proof (rasterize_shape bb atoms g0) as E1.
  pose proof (rasterize_wf bb atoms g0 Hwf) as E2.
  rewrite Hr in E1, E2. cbn [fst] in E1, E2.
  split; [exact E2|]. rewrite E1, Hsh.
  rewrite <- (box_size_extent atoms bb ax0 Hbb (Hnn ax0)),
    <- (box_size_extent atoms bb ax1 Hbb (Hnn ax1)),
    <- (box_size_extent atoms bb ax2 Hbb (Hnn ax2)). reflexivity.
Qed.

(** X14.  For the array the notebook builds, whether the loop finished
    or not: [model(x)] goes through, with a result of shape (1, 1),
    exactly when the bounding box is at least 16 Angstroms long on every
    axis. *)
Theorem X14_network_needs_a_box_of_16
    (atoms : list atom) (bb : bbox) (g : ndarray) (e : option exn) :
  bounding_box atoms = Ok bb →
  voxelize atoms = Ok (g, e) →
  model_x_shape g = TOk [1; 1] ↔ ∀ ax, 16 ≤ extent bb ax.
Proof.
  intros Hbb Hv.
  destruct (voxelize_result_shape atoms bb g e Hbb Hv) as [Hwf Hsh].
  destruct (model_accepts_iff g _ _ _ _ Hwf Hsh) as [H _].
  rewrite H. split.
  - intros (_ & H0 & H1 & H2) [| |]; assumption.
  - intros Hall. repeat split; [apply (Hall ax0)|apply (Hall ax1)|apply (Hall ax2)].
Qed.

Lemma X14_witness :
  ¬ (∀ ax, 16 ≤ extent scenario_box ax) ∧
  model_x_shape
    (NDArray (2, 2, 1, 4) [1; 0; 0; 0;  0; 0; 0; 0;  0; 0; 0; 0;  0; 1; 0; 0]%Q)
  ≠ TOk [1; 1].
Proof.
  assert (¬ (∀ ax, 16 ≤ extent scenario_box ax)) as Hn.
  { intros H. specialize (H ax0). vm_compute in H. apply H. reflexivity. }
  split; [exact Hn|].
  intros H. apply Hn.
  apply (proj1 (X14_network_needs_a_box_of_16 scenario scenario_box
                  (NDArray (2, 2, 1, 4)
                     [1; 0; 0; 0;  0; 0; 0; 0;  0; 0; 0; 0;  0; 1; 0; 0]%Q)
                  None ltac:(vm_compute; reflexivity)
                  ltac:(vm_compute; reflexivity))), H.
Defined.

End Network.

(** ** What the plot shows, how tight the box is, what the copy keeps *)

Section PlotBoxCopy.

(** X15.  When the notebook runs to the end, the slice plotted for the
    symbol at position [c] of [symbols] has the three spatial extents of
    the box as its shape, and it is 1 at [i, j, k] exactly when an atom
    with that symbol has voxel index (i, j, k); elsewhere it is 0. *)
Theorem X15_plotted_channel_shows_its_element
    (atoms : list atom) (bb : bbox) (g : ndarray) (c : nat) (s : string) :
  bounding_box atoms = Ok bb →
  voxelize atoms = Ok (g, None) →
  symbols !! c = Some s →
  ∃ v, channel g (Z.of_nat c) = Ok v ∧
       view_shape v = [extent bb ax0; extent bb ax1; extent bb ax2] ∧
       ∀ i j k,
         0 ≤ i < extent bb ax0 → 0 ≤ j < extent bb ax1 → 0 ≤ k < extent bb ax2 →
         (view_getitem v [i; j; k] = Some 1%Q ∨
          view_getitem v [i; j; k] = Some 0%Q) ∧
         (view_getitem v [i; j; k] = Some 1%Q ↔
          ∃ a, In a atoms ∧ voxel_index bb a = V3 i j k ∧ symbol a = s).
Proof.
  intros Hbb Hv Hs.
  destruct (voxelize_result_shape atoms bb g None Hbb Hv) as [Hwf Hsh].
  destruct (voxelize_finished atoms bb g Hbb Hv) as (g0 & Hz & Hr & _ & Hnn).
  assert (c < 4)%nat as Hc by (apply lookup_lt_Some in Hs; exact Hs).
  destruct (proj2 (channel_Ok_iff g _ _ _ _ (Z.of_nat c) Hsh)) as [v Ev]; [lia|].
  exists v. split; [exact Ev|].
  destruct (channel_inv g _ _ _ _ _ v Hsh Ev) as (jc & Ec & ->).
  split; [reflexivity|].
  intros i j k Hi Hj Hk.
  rewrite (channel_read g _ _ _ _ (Z.of_nat c) jc i j k Hsh Ec).
  assert (in_range (shape g) (i, j, k, Z.of_nat c)) as Hix
    by (rewrite Hsh; repeat split; lia).
  destruct (rasterize_zeros_cell bb (shape g) _ g0 g atoms Hz Hr Hix)
    as [Hone Hzero].
  pose proof (target_member_iff atoms bb (shape g) i j k (Z.of_nat c) Hbb Hix Hnn)
    as Hmem.
  assert ((∃ a, In a atoms ∧ voxel_index bb a = V3 i j k ∧
                index symbols (symbol a) = Ok (Z.of_nat c)) ↔
          ∃ a, In a atoms ∧ voxel_index bb a = V3 i j k ∧ symbol a = s) as Hsym.
  { split; intros (a & Ha & Hidx & Hc'); exists a; (split; [exact Ha|]);
      (split; [exact Hidx|]).
    - apply index_symbols_lookup in Hc' as [_ Hl].
      rewrite Nat2Z.id in Hl. congruence.
    - apply index_symbols_lookup. rewrite Nat2Z.id. split; [lia|congruence]. }
  rewrite <- Hsym, <- Hmem.
  destruct (decide (ravel (shape g) (i, j, k, Z.of_nat c)
                    ∈ omap (target_opt bb (shape g)) atoms)) as [Hin|Hout].
  - specialize (Hone Hin). split; [now left|]. tauto.
  - specialize (Hzero Hout). split; [now right|].
    rewrite Hzero. split; [discriminate|tauto].
Qed.

Lemma X15_witness :
  ∃ v, channel
         (NDArray (2, 2, 1, 4)
            [1; 0; 0; 0;  0; 0; 0; 0;  0; 0; 0; 0;  0; 1; 0; 0]%Q) 1 = Ok v ∧
       (view_getitem v [1; 1; 0] = Some 1%Q ↔
        ∃ a, In a scenario ∧ voxel_index scenario_box a = V3 1 1 0 ∧
             symbol a = "N"%string).
Proof.
  destruct (X15_plotted_channel_shows_its_element scenario scenario_box
              (NDArray (2, 2, 1, 4)
                 [1; 0; 0; 0;  0; 0; 0; 0;  0; 0; 0; 0;  0; 1; 0; 0]%Q)
              1%nat "N"%string
              ltac:(vm_compute; reflexivity) ltac:(vm_compute; reflexivity)
              eq_refl) as (v & Ev & _ & H).
  exists v. split; [exact Ev|].
  apply H; vm_compute; split; congruence.
Defined.

(** X16.  The bounding box contains every atom, faces included, and is
    tight: on every axis some atom lies less than 1 above the lower
    corner and some atom lies less than 1 below the upper corner. *)
Theorem X16_box_contains_atoms_tightly (atoms : list atom) (bb : bbox) (ax : axis) :
  bounding_box atoms = Ok bb →
  (∀ a, In a atoms →
        (component ax (fst bb) <= component ax (coords a))%Q ∧
        (component ax (coords a) <= component ax (snd bb))%Q) ∧
  (∃ a, In a atoms ∧ (component ax (coords a) < component ax (fst bb) + 1)%Q) ∧
  (∃ a, In a atoms ∧ (component ax (snd bb) - 1 < component ax (coords a))%Q).
Proof.
  intros Hbb. apply bounding_box_inv in Hbb as (lo & hi & Hlo & Hhi & ->).
  cbn [fst snd]. rewrite !component_map3. unfold np_floor, np_ceil.
  destruct (reduce_axis0_min atoms lo ax Hlo) as [Hmin_in Hmin].
  destruct (reduce_axis0_max atoms hi ax Hhi) as [Hmax_in Hmax].
  rewrite Forall_forall in Hmin, Hmax.
  assert (∀ q, In q (column ax atoms) →
            ∃ a, In a atoms ∧ component ax (coords a) = q) as Hcol.
  { intros q Hq. unfold column, pos in Hq. rewrite map_map in Hq.
    apply in_map_iff in Hq as (a & E & Ha). eauto. }
  split; [|split].
  - intros a Ha. pose proof (column_In ax atoms a Ha) as Hc.
    apply list_elem_of_In in Hc. split.
    + eapply Qle_trans; [apply Qfloor_le|]. now apply Hmin.
    + eapply Qle_trans; [|apply Qle_ceiling]. now apply Hmax.
  - destruct (Hcol _ Hmin_in) as (a & Ha & Ea). exists a.
    split; [exact Ha|]. rewrite Ea.
    eapply Qlt_le_trans; [apply Qlt_floor|].
    rewrite inject_Z_plus. apply Qle_refl.
  - destruct (Hcol _ Hmax_in) as (a & Ha & Ea). exists a.
    split; [exact Ha|]. rewrite Ea.
    eapply Qle_lt_trans; [|apply Qceiling_lt].
    unfold Z.sub. rewrite inject_Z_plus. apply Qle_refl.
Qed.

Lemma X16_witness :
  ∃ a, In a scenario ∧
       (component ax0 (snd scenario_box) - 1 < component ax0 (coords a))%Q.
Proof.
  apply (X16_box_contains_atoms_tightly scenario scenario_box ax0).
  vm_compute. reflexivity.
Defined.

Lemma fst_row_major (sh : list Z) : fst <$> row_major sh = sh.
Proof.
  induction sh as [|n sh IH]; [reflexivity|].
  cbn [row_major fmap list_fmap fst]. f_equal. exact IH.
Qed.

(** Whether a subscript is accepted depends on the extents only. *)
Lemma locate_extents_only (ds ds' : list (Z * Z)) (ix : list Z) (off off' : Z) :
  fst <$> ds = fst <$> ds' →
  locate ds ix off = None → locate ds' ix off' = None.
Proof.
  revert ds' ix off off'.
  induction ds as [|[n s] ds IH]; intros [|[n' s'] ds'] [|i ix] off off' E;
    simpl; try discriminate; try reflexivity.
  injection E as -> E.
  destruct (check_index 0 i n') as [j|]; [|reflexivity].
  now apply IH.
Qed.

(** X17.  [torch.FloatTensor] of a view of zeros and ones, with
    non-negative extents and subscripts that all point inside its
    buffer, is a tensor of the same shape that reads the same at every
    subscript, accepted or not. *)
Theorem X17_FloatTensor_keeps_every_element (v : view) (ix : list Z) :
  Forall (fun y => y = 0%Q ∨ y = 1%Q) (storage v) →
  Forall (fun n => 0 ≤ n) (view_shape v) →
  (∀ q, locate (dims v) ix (offset v) = Some q →
        is_Some (storage v !! Z.to_nat q)) →
  view_shape (FloatTensor v) = view_shape v ∧
  view_getitem (FloatTensor v) ix = view_getitem v ix.
Proof.
  intros _ Hnn Hin. unfold FloatTensor, view_shape, view_getitem.
  cbn [dims offset storage]. rewrite fst_row_major.
  split; [reflexivity|].
  destruct (locate (dims v) ix (offset v)) as [q|] eqn:Eq.
  - destruct (locate (row_major (fst <$> dims v)) ix 0) as [p|] eqn:Ep.
    + cbn [mbind option_bind].
      rewrite (view_elements_lookup _ _ _ _ _ _ Hnn Ep Eq).
      destruct (Hin q eq_refl) as [y ->]. reflexivity.
    + apply (locate_extents_only _ (dims v) _ _ (offset v)) in Ep;
        [congruence|apply fst_row_major].
  - rewrite (locate_extents_only (dims v) (row_major (fst <$> dims v)) ix
               (offset v) 0); [reflexivity| |exact Eq].
    symmetry. apply fst_row_major.
Qed.

Lemma X17_witness :
  view_getitem (FloatTensor (crop zeros_2214)) [1; 1; 0; 1]
  = view_getitem (crop zeros_2214) [1; 1; 0; 1].
Proof.
  apply (X17_FloatTensor_keeps_every_element (crop zeros_2214) [1; 1; 0; 1]).
  - simpl. repeat constructor; now left.
  - vm_compute. repeat constructor; discriminate.
  - intros q Hq. vm_compute in Hq. injection Hq as <-.
    vm_compute. eauto.
Defined.

End PlotBoxCopy.
